(** * The [@cached] decorator of [@ember/-internals/metal/lib/cached.ts]

    A shallow embedding of the decorator and of the getter it installs,
    over a small model of the JavaScript values, objects and closures the
    code touches, followed by the properties of the memoized property.

    The model has what the thirty lines of the decorator use:
    - values with [typeof], objects with data properties (a descriptor is
      such an object), functions as objects that carry code, property
      reads and strict-mode assignments with their TypeErrors;
    - the conversion of a value to a string in a template literal, with
      the errors it raises for an object: the [toString] and [valueOf] that
      are listed with the object or inherited from the built-in prototype
      of its kind;
    - the closure of the installed getter, as the environment of the
      [cached] call that made it: the WeakMap [caches], keyed by object
      identity, and the captured [getter];
    - the tracking engine behind [createCache] and [getValue], which is not
      part of the sources and is modelled from the specification: tracked
      cells with revisions, and caches that remember what their thunk read;
    - the messages of the three validation errors, for arguments that are
      primitives;
    - a log of the calls to the engine, to count them.
    Symbols and BigInts, prototypes other than the built-in ones and none,
    accessors on descriptors, frozen objects and proxies are outside the
    model, and so are user functions that do more than read tracked state
    and return or throw. *)

From stdpp Require Import gmap strings list fin_maps pretty.

Open Scope string_scope.

(** ** JavaScript values and objects *)

(** A value is a primitive or a reference to a heap object; functions are
    heap objects that carry code.  Numbers are restricted to integers:
    nothing below computes with them. *)
Inductive value : Type :=
  | VUndefined
  | VNull
  | VBool (b : bool)
  | VNumber (n : Z)
  | VString (s : string)
  | VObject (l : nat).

#[global] Instance value_eq_dec : EqDecision value.
Proof. solve_decision. Defined.

(** The results of [typeof] on the values above. *)
Inductive jstype : Type :=
  TUndefined | TObject | TBoolean | TNumber | TString | TFunction.

#[global] Instance jstype_eq_dec : EqDecision jstype.
Proof. solve_decision. Defined.

(** A reactive cell (tracked state): property [k] of the object at [l]. *)
Definition cell : Type := nat * string.

(** A dependency as the engine records it: the cell and the revision the
    cell had when it was read. *)
Definition dep : Type := cell * nat.

(** The body of a user-written function applied to its receiver: it reads
    tracked cells and then returns a value or throws one. *)
Inductive comp : Type :=
  | Ret (v : value)
  | Throw (e : value)
  | Read (c : cell) (k : value → comp).

(** What a function object runs when it is called: a user function, or the
    function expression of lines 61-67, which refers to the environment of
    the [cached] call that created it. *)
Inductive callable : Type :=
  | UserFn (body : value → comp)
  | CachedGetter (env : nat).

Record object : Type := Object {
  props : gmap string value;
  code : option callable
}.

(** [getter.bind(this)]: a function value together with its receiver. *)
Record thunk : Type := Thunk {
  bound_target : value;
  bound_this : value
}.

(** A cache of the tracking engine. *)
Record handle : Type := Handle {
  h_fn : thunk;
  h_value : option value;
  h_deps : list dep
}.

(** The local bindings of one call of [cached] that the installed getter
    closes over: [caches] (the WeakMap, from object identity to cache) and
    [getter] (the original [descriptor.get]). *)
Record closure_env : Type := ClosureEnv {
  caches : gmap nat nat;
  getter : value
}.

(** Calls to the tracking engine, logged where they happen: [createCache]
    at line 63 by the getter of environment [env] for receiver [this], and
    the engine running the thunk of cache [h]. *)
Inductive event : Type :=
  | EvCreateCache (env : nat) (this : value) (h : nat)
  | EvRun (h : nat).

Inductive exn : Type :=
  | TypeError
  | CachedExtraneousParens
  | CachedInvalidArgsError (args : list value)
  | CachedGetterOnlyError (key : value)
  | Thrown (e : value).

Inductive outcome : Type :=
  | Return (v : value)
  | Raise (e : exn)
  | OutOfFuel.

Record state : Type := State {
  heap : list object;
  envs : list closure_env;
  handles : list handle;
  cells : gmap cell value;
  revs : gmap cell nat;
  trace : list event
}.

Definition init_state : state :=
  {| heap := []; envs := []; handles := []; cells := ∅; revs := ∅; trace := [] |}.

Definition set_heap (hp : list object) (st : state) : state :=
  {| heap := hp; envs := envs st; handles := handles st;
     cells := cells st; revs := revs st; trace := trace st |}.

Definition set_envs (es : list closure_env) (st : state) : state :=
  {| heap := heap st; envs := es; handles := handles st;
     cells := cells st; revs := revs st; trace := trace st |}.

Definition set_handles (hs : list handle) (st : state) : state :=
  {| heap := heap st; envs := envs st; handles := hs;
     cells := cells st; revs := revs st; trace := trace st |}.

Definition log (ev : event) (st : state) : state :=
  {| heap := heap st; envs := envs st; handles := handles st;
     cells := cells st; revs := revs st; trace := ev :: trace st |}.

(** ** Property access, [typeof] and [bind] *)

Definition callable_of (st : state) (v : value) : option callable :=
  match v with
  | VObject l => heap st !! l ≫= code
  | _ => None
  end.

Definition typeof (st : state) (v : value) : jstype :=
  match v with
  | VUndefined => TUndefined
  | VNull => TObject
  | VBool _ => TBoolean
  | VNumber _ => TNumber
  | VString _ => TString
  | VObject _ => match callable_of st v with Some _ => TFunction | None => TObject end
  end.

(** [k in v]; [None] is the TypeError of a right operand that is not an
    object.  The properties listed with the object are looked at: no
    built-in prototype has a property of the name the decorator asks
    for. *)
Definition has_property (st : state) (v : value) (k : string) : option bool :=
  match v with
  | VObject l => o ← heap st !! l; Some (bool_decide (is_Some (props o !! k)))
  | _ => None
  end.

(** [v.k]; [None] is the TypeError of reading a property of [undefined] or
    [null].  Primitives have no property of the names used here. *)
Definition get_property (st : state) (v : value) (k : string) : option value :=
  match v with
  | VUndefined | VNull => None
  | VObject l => o ← heap st !! l; Some (default VUndefined (props o !! k))
  | _ => Some VUndefined
  end.

(** [v.k = x] in strict code; [None] is the TypeError of assigning to a
    property of a value that is not an object. *)
Definition set_property (st : state) (v : value) (k : string) (x : value)
  : option state :=
  match v with
  | VObject l =>
      o ← heap st !! l;
      Some (set_heap (<[l := {| props := <[k := x]> (props o); code := code o |}]> (heap st)) st)
  | _ => None
  end.

(** [g.bind(this)]; [None] is the TypeError of a [g] that is not a function. *)
Definition bind (st : state) (g this : value) : option thunk :=
  match callable_of st g with
  | Some _ => Some {| bound_target := g; bound_this := this |}
  | None => None
  end.

(** ** The WeakMap [caches] *)

Definition wm_has (m : gmap nat nat) (k : value) : bool :=
  match k with
  | VObject l => bool_decide (is_Some (m !! l))
  | _ => false
  end.

Definition wm_get (m : gmap nat nat) (k : value) : option nat :=
  match k with
  | VObject l => m !! l
  | _ => None
  end.

(** [None] is the TypeError of a key that is not an object. *)
Definition wm_set (m : gmap nat nat) (k : value) (h : nat) : option (gmap nat nat) :=
  match k with
  | VObject l => Some (<[l := h]> m)
  | _ => None
  end.

(** ** Tracked state *)

(** Modelled from the spec: tracked state belongs to the tracking engine,
    which is not part of the sources; the glossary has "a storage location
    whose reads are recorded by the tracking engine and whose writes
    trigger invalidation of dependents".  Every cell has a revision, the
    number of assignments to it. *)
Definition rev (st : state) (c : cell) : nat := default 0 (revs st !! c).

Definition read_cell (st : state) (c : cell) : value :=
  default VUndefined (cells st !! c).

(** Assigning a tracked cell stores the value and bumps the cell's revision. *)
Definition write_cell (c : cell) (v : value) (st : state) : state :=
  {| heap := heap st; envs := envs st; handles := handles st;
     cells := <[c := v]> (cells st);
     revs := <[c := S (rev st c)]> (revs st);
     trace := trace st |}.

(** Running a user function body: the result, and the cells it read with
    the revisions they had. *)
Fixpoint run (st : state) (m : comp) : (value + value) * list dep :=
  match m with
  | Ret v => (inl v, [])
  | Throw e => (inr e, [])
  | Read c k =>
      let '(r, ds) := run st (k (read_cell st c)) in
      (r, (c, rev st c) :: ds)
  end.

(** ** The tracking engine ([@glimmer/validator]) *)

Definition result : Type := outcome * state * list dep.

(** How the engine calls a function value with a receiver. *)
Definition invoker : Type := value → value → state → result.

(** Modelled from the spec: [createCache] of [@glimmer/validator] is not
    part of the sources; section 6 has [createHandle(thunk) -> Handle]:
    "wraps a zero-argument computation for later resolution; does not
    evaluate it yet". *)
Definition createCache (fn : thunk) (st : state) : nat * state :=
  (length (handles st),
   set_handles (handles st ++ [{| h_fn := fn; h_value := None; h_deps := [] |}]) st).

(** No cell of [ds] was assigned since its revision was recorded. *)
Definition deps_current (st : state) (ds : list dep) : bool :=
  forallb (λ d : dep, Nat.eqb (rev st d.1) d.2) ds.

(** The value a cache holds, when nothing its thunk read has changed. *)
Definition cached_value (st : state) (hd : handle) : option value :=
  if deps_current st (h_deps hd) then h_value hd else None.

(** Modelled from the spec: [getValue] of [@glimmer/validator] is not part
    of the sources; section 6 has [resolve(handle) -> value]: "returns the
    cached value if still valid per the engine's dependency bookkeeping,
    otherwise invokes the thunk, records newly observed dependencies,
    caches, and returns the fresh value", and section 7: a failure of the
    thunk "propagates to the caller of the read unmodified [...] it is not
    suppressed or cached".  The dependencies of the cache are reported to
    the invocation the resolution happens in. *)
Definition getValue (invoke : invoker) (cache : option nat) (st : state) : result :=
  match cache ≫= (λ h, pair h <$> handles st !! h) with
  | None => (Raise TypeError, st, [])
  | Some (h, hd) =>
      match cached_value st hd with
      | Some v => (Return v, st, h_deps hd)
      | None =>
          let '(out, st1, ds) :=
            invoke (bound_target (h_fn hd)) (bound_this (h_fn hd)) (log (EvRun h) st) in
          match out with
          | Return v =>
              (Return v,
               set_handles (<[h := {| h_fn := h_fn hd; h_value := Some v; h_deps := ds |}]>
                              (handles st1)) st1,
               ds)
          | _ => (out, st1, [])
          end
      end
  end.

(** ** String conversion in a template literal *)

(** An object has, besides the properties listed with it, those of the
    built-in prototype of its kind ([Object.prototype], or
    [Function.prototype] for a function), unless it is marked as having no
    prototype, as [{ __proto__: null }] and [Object.create(null)] are.  Of
    the inherited properties only the two conversion methods are ever
    looked up. *)
Definition without_prototype (o : object) : bool :=
  bool_decide (props o !! "__proto__" = Some VNull).

(** What one method gives to [OrdinaryToPrimitive]. *)
Inductive attempt : Type :=
  | NotCallable
  | GivesPrimitive
  | GivesObject
  | Throws (x : value).

(** One step of [OrdinaryToPrimitive(o, string)] for the object at [l]: the
    method [name] is looked up and, when it is callable, called on the
    object.  A method listed with the object is a user function, which is
    run; the [toString] an object inherits returns a string, the [valueOf]
    it inherits returns the object itself.  A getter installed by [cached]
    that is stored as a conversion method is outside the model and counts
    as not callable. *)
Definition conversion_method (st : state) (l : nat) (name : string) : attempt :=
  match heap st !! l with
  | None => NotCallable
  | Some o =>
      match props o !! name with
      | Some m =>
          match callable_of st m with
          | Some (UserFn body) =>
              match (run st (body (VObject l))).1 with
              | inl (VObject _) => GivesObject
              | inl _ => GivesPrimitive
              | inr x => Throws x
              end
          | _ => NotCallable
          end
      | None =>
          if without_prototype o then NotCallable
          else if bool_decide (name = "toString") then GivesPrimitive
          else GivesObject
      end
  end.

(** The error that [`${d}`] raises, if any.  A primitive converts (a
    Symbol, which the model does not have, would not).  An object converts
    through [toString] and then [valueOf], no property being keyed by
    [Symbol.toPrimitive]: the first of them that is callable and gives a
    primitive ends the conversion, what either throws is raised, and when
    neither gives a primitive the conversion raises a TypeError. *)
Definition conversion_error (st : state) (d : value) : option exn :=
  match d with
  | VObject l =>
      match conversion_method st l "toString" with
      | GivesPrimitive => None
      | Throws x => Some (Thrown x)
      | NotCallable | GivesObject =>
          match conversion_method st l "valueOf" with
          | GivesPrimitive => None
          | Throws x => Some (Thrown x)
          | NotCallable | GivesObject => Some TypeError
          end
      end
  | _ => None
  end.

(** [args.map((d) => `'${d}'`)] of lines 84-85 converts the arguments in
    order: the error of the first conversion that fails. *)
Fixpoint first_conversion_error (st : state) (args : list value) : option exn :=
  match args with
  | [] => None
  | d :: args' =>
      match conversion_error st d with
      | Some e => Some e
      | None => first_conversion_error st args'
      end
  end.

(** ** The decorator *)

Definition throwCachedExtraneousParens : outcome := Raise CachedExtraneousParens.

(** Lines 76-78.  The message is built, with [`${key}`], before the error
    is made. *)
Definition throwCachedGetterOnlyError (st : state) (key : value) : outcome :=
  match conversion_error st key with
  | Some e => Raise e
  | None => Raise (CachedGetterOnlyError key)
  end.

(** Lines 80-90.  The message is built, with [`'${d}'`] for every argument,
    before the error is made. *)
Definition throwCachedInvalidArgsError (st : state) (args : list value) : outcome :=
  match first_conversion_error st args with
  | Some e => Raise e
  | None => Raise (CachedInvalidArgsError args)
  end.

(** Lines 61-67, the function assigned to [descriptor.get], running in the
    environment [e] with receiver [this]. *)
Definition descriptor_get (invoke : invoker) (e : nat) (this : value) (st : state)
  : result :=
  match envs st !! e with
  | None => (Raise TypeError, st, [])
  | Some env =>
      let created : exn * state + state :=
        if negb (wm_has (caches env) this) then
          match bind st (getter env) this with
          | None => inl (TypeError, st)
          | Some fn =>
              let '(h, st1) := createCache fn st in
              let st2 := log (EvCreateCache e this h) st1 in
              match wm_set (caches env) this h with
              | None => inl (TypeError, st2)
              | Some m =>
                  inr (set_envs (<[e := {| caches := m; getter := getter env |}]> (envs st2)) st2)
              end
          end
        else inr st in
      match created with
      | inl (err, st') => (Raise err, st', [])
      | inr st' =>
          getValue invoke (env' ← envs st' !! e; wm_get (caches env') this) st'
      end
  end.

(** The outcome of a user function: the value it returns, or the value it
    throws. *)
Definition outcome_of (r : value + value) : outcome :=
  match r with inl v => Return v | inr x => Raise (Thrown x) end.

(** Calling a function value.  Fuel bounds the nesting of memoized getters
    that wrap memoized getters; a user function needs none. *)
Fixpoint call (fuel : nat) (fn this : value) (st : state) : result :=
  match callable_of st fn with
  | None => (Raise TypeError, st, [])
  | Some (UserFn body) =>
      let '(r, ds) := run st (body this) in (outcome_of r, st, ds)
  | Some (CachedGetter e) =>
      match fuel with
      | 0 => (OutOfFuel, st, [])
      | S n => descriptor_get (call n) e this st
      end
  end.

(** The check of line 54: [None] is a TypeError raised by the check itself,
    [Some true] means [throwCachedGetterOnlyError]. *)
Definition not_a_getter (st : state) (descriptor : value) : option bool :=
  match has_property st descriptor "get" with
  | None => None
  | Some false => Some true
  | Some true =>
      g ← get_property st descriptor "get";
      Some (negb (bool_decide (typeof st g = TFunction)))
  end.

(** Lines 58-67.  A WeakMap and a function object that never become
    reachable, because [cached] throws, are not recorded in the state. *)
Definition install (descriptor : value) (st : state) : outcome * state :=
  match get_property st descriptor "get" with
  | None => (Raise TypeError, st)
  | Some g =>
      let e := length (envs st) in
      let c := length (heap st) in
      let st1 :=
        set_envs (envs st ++ [{| caches := ∅; getter := g |}])
          (set_heap (heap st ++ [{| props := ∅; code := Some (CachedGetter e) |}]) st) in
      match set_property st1 descriptor "get" (VObject c) with
      | None => (Raise TypeError, st)
      | Some st2 => (Return VUndefined, st2)
      end
  end.

(** Lines 40-68. *)
Definition cached (DEBUG : bool) (args : list value) (st : state) : outcome * state :=
  let target := nth 0 args VUndefined in
  let key := nth 1 args VUndefined in
  let descriptor := nth 2 args VUndefined in
  if DEBUG && bool_decide (target = VUndefined) then (throwCachedExtraneousParens, st)
  else if DEBUG &&
          (bool_decide (typeof st target ≠ TObject)
           || bool_decide (typeof st key ≠ TString)
           || bool_decide (typeof st descriptor ≠ TObject)
           || bool_decide (length args ≠ 3))
  then (throwCachedInvalidArgsError st args, st)
  else
    match (if DEBUG then not_a_getter st descriptor else Some false) with
    | None => (Raise TypeError, st)
    | Some true => (throwCachedGetterOnlyError st key, st)
    | Some false => install descriptor st
    end.

(** ** The messages of the validation errors *)

(** The string a template literal puts in for [v].  [None] stands for the
    strings the model does not give: that of an object is what its
    [toString] or [valueOf] returns, and a number beyond the safe integers
    is printed from its rounded digits. *)
Definition ToString (v : value) : option string :=
  match v with
  | VUndefined => Some "undefined"
  | VNull => Some "null"
  | VBool b => Some (if b then "true" else "false")
  | VNumber n => if bool_decide (Z.abs n ≤ 2 ^ 53)%Z then Some (pretty n) else None
  | VString s => Some s
  | VObject _ => None
  end.

(** [xs.join(sep)] for an array of strings. *)
Fixpoint join (sep : string) (xs : list string) : string :=
  match xs with
  | [] => ""
  | [x] => x
  | x :: xs' => x +:+ sep +:+ join sep xs'
  end.

(** Lines 70-74: the message of the error of [throwCachedExtraneousParens]. *)
Definition extraneous_parens_message : string :=
  "You attempted to use @cached(), which is not necessary nor supported. Remove the parentheses and you will be good to go!".

(** Lines 76-78: the message of the error of [throwCachedGetterOnlyError]. *)
Definition getter_only_message (key : value) : option string :=
  k ← ToString key;
  Some ("The @cached decorator must be applied to getters. '" +:+ k +:+ "' is not a getter.").

(** Lines 80-90: the message of the error of [throwCachedInvalidArgsError]. *)
Definition invalid_args_message (args : list value) : option string :=
  quoted ← mapM (λ d, s ← ToString d; Some ("'" +:+ s +:+ "'")) args;
  Some ("You attempted to use @cached on with "
        +:+ (if bool_decide (1 < length args)%nat then "arguments" else "an argument")
        +:+ " ( @cached(" +:+ join ", " quoted
        +:+ "), which is not supported. Dependencies are automatically tracked, so you can just use `@cached`").

(** The [message] of the Error object behind a validation error. *)
Definition message (e : exn) : option string :=
  match e with
  | CachedExtraneousParens => Some extraneous_parens_message
  | CachedInvalidArgsError args => invalid_args_message args
  | CachedGetterOnlyError key => getter_only_message key
  | TypeError | Thrown _ => None
  end.

(** ** The program around the decorator *)

(** What the surrounding program can do: allocate objects and functions,
    assign properties, assign tracked state, apply the decorator, and call
    a function value with a receiver (a read of the property calls the
    descriptor's [get] with the instance as receiver). *)
Inductive op : Type :=
  | OpNewObject (ps : gmap string value)
  | OpNewFunction (body : value → comp)
  | OpSetProp (target : value) (k : string) (v : value)
  | OpWrite (c : cell) (v : value)
  | OpDecorate (DEBUG : bool) (args : list value)
  | OpCall (fuel : nat) (fn this : value).

Definition step (o : op) (st : state) : state :=
  match o with
  | OpNewObject ps => set_heap (heap st ++ [{| props := ps; code := None |}]) st
  | OpNewFunction body =>
      set_heap (heap st ++ [{| props := ∅; code := Some (UserFn body) |}]) st
  | OpSetProp t k v => default st (set_property st t k v)
  | OpWrite c v => write_cell c v st
  | OpDecorate dbg args => (cached dbg args st).2
  | OpCall fuel fn this => (call fuel fn this st).1.2
  end.

Definition steps (os : list op) (st : state) : state :=
  foldl (λ s o, step o s) st os.

Inductive reachable : state → Prop :=
  | reachable_init : reachable init_state
  | reachable_step o st : reachable st → reachable (step o st).

(** Reading the memoized property: the getter found in the descriptor is
    called with the instance as receiver. *)
Definition read_property (fuel : nat) (descriptor this : value) (st : state) : result :=
  match get_property st descriptor "get" with
  | None => (Raise TypeError, st, [])
  | Some fn => call (S fuel) fn this st
  end.

(** ** Counting the calls to the engine *)

Definition is_create (e : nat) (this : value) (ev : event) : bool :=
  match ev with
  | EvCreateCache e' t _ => bool_decide (e' = e ∧ t = this)
  | EvRun _ => false
  end.

Definition is_run (h : nat) (ev : event) : bool :=
  match ev with
  | EvRun h' => bool_decide (h' = h)
  | EvCreateCache _ _ _ => false
  end.

Fixpoint count (p : event → bool) (tr : list event) : nat :=
  match tr with
  | [] => 0
  | ev :: tr' => (if p ev then 1 else 0) + count p tr'
  end.

(** How often the getter of environment [e] called [createCache] for
    receiver [this]. *)
Definition creations (e : nat) (this : value) (st : state) : nat :=
  count (is_create e this) (trace st).

(** How often the engine ran the thunk of cache [h]. *)
Definition runs (h : nat) (st : state) : nat :=
  count (is_run h) (trace st).

(** ** The example of the documentation *)

Module Person.

(** [get fullName() { return `${this.firstName} ${this.lastName}` }] *)
Definition to_string (v : value) : string :=
  match v with VString s => s | _ => "undefined" end.

Definition fullName (this : value) : comp :=
  match this with
  | VObject l =>
      Read (l, "firstName") (λ first,
      Read (l, "lastName") (λ last,
      Ret (VString (to_string first ++ " " ++ to_string last))))
  | _ => Throw (VString "TypeError")
  end.

(** Heap: 0 the prototype, 1 the original getter, 2 the descriptor,
    3 and 4 two instances; the decorator then allocates 5. *)
Definition objects : list op :=
  [ OpNewObject ∅;
    OpNewFunction fullName;
    OpNewObject {[ "get" := VObject 1; "set" := VUndefined;
                   "enumerable" := VBool false; "configurable" := VBool true ]};
    OpNewObject ∅;
    OpNewObject ∅;
    OpWrite (3, "firstName") (VString "Jen");
    OpWrite (3, "lastName") (VString "Weber");
    OpWrite (4, "firstName") (VString "Tom");
    OpWrite (4, "lastName") (VString "Dale") ].

Definition args : list value := [VObject 0; VString "fullName"; VObject 2].

Definition before : state := steps objects init_state.

Definition world : state := step (OpDecorate true args) before.

(** The instance at 3 has read [fullName]; then its [lastName] is assigned. *)
Definition read_once : state := step (OpCall 1 (VObject 5) (VObject 3)) world.


(** Both instances have read [fullName]. *)
Definition read_both : state := step (OpCall 1 (VObject 5) (VObject 4)) read_once.

End Person.

(** ** The decorator on a method *)

Module Misuse.

(** [@cached answer() { return 42 }]: the descriptor of a method has
    [value] and no [get].  Heap: 0 the prototype, 1 the method, 2 the
    descriptor, 3 an instance; the decorator, where it installs, then
    allocates 4. *)
Definition objects : list op :=
  [ OpNewObject ∅;
    OpNewFunction (λ _, Ret (VNumber 42));
    OpNewObject {[ "value" := VObject 1; "writable" := VBool true;
                   "enumerable" := VBool false; "configurable" := VBool true ]};
    OpNewObject ∅ ].

Definition args : list value := [VObject 0; VString "answer"; VObject 2].

Definition before : state := steps objects init_state.

(** The state after the decorator ran with [DEBUG] off. *)
Definition production : state := step (OpDecorate false args) before.

End Misuse.

(** ** A getter that throws *)

Module Throwing.

(** [get amount() { if (typeof this.input !== 'number') throw 'no number';
    return this.input }].  Heap: 0 the prototype, 1 the original getter,
    2 the descriptor, 3 an instance; the decorator then allocates 4. *)
Definition amount (this : value) : comp :=
  match this with
  | VObject l =>
      Read (l, "input") (λ input,
      match input with
      | VNumber _ => Ret input
      | _ => Throw (VString "no number")
      end)
  | _ => Throw (VString "TypeError")
  end.

Definition objects : list op :=
  [ OpNewObject ∅;
    OpNewFunction amount;
    OpNewObject {[ "get" := VObject 1; "set" := VUndefined;
                   "enumerable" := VBool false; "configurable" := VBool true ]};
    OpNewObject ∅;
    OpWrite (3, "input") (VString "12") ].

Definition args : list value := [VObject 0; VString "amount"; VObject 2].

Definition world : state := step (OpDecorate true args) (steps objects init_state).

End Throwing.

(** ** The decorator applied twice *)

Module Twice.

(** The example of the documentation after the decorator ran a second time
    on the same descriptor: it allocates the function 6 with environment 1,
    which captured the getter 5 of the first run. *)
Definition world : state := step (OpDecorate true Person.args) Person.world.

End Twice.

(** ** Arguments that are objects *)

Module Bare.

(** Heap: 0 a function that throws, 1 an ordinary object, 2 an object
    without a prototype, as [Object.create(null)] makes it, 3 an object
    whose [toString] is the function 0. *)
Definition objects : list op :=
  [ OpNewFunction (λ _, Throw (VString "no string"));
    OpNewObject ∅;
    OpNewObject {[ "__proto__" := VNull ]};
    OpNewObject {[ "toString" := VObject 0 ]} ].

Definition world : state := steps objects init_state.

End Bare.

(** ** The vocabulary of the properties *)

(** The cache of instance [l] under the declaration with environment [e]:
    [None] is the state Uninitialized, [Some h] the state Initialized. *)
Definition cache_of (st : state) (e l : nat) : option nat :=
  env ← envs st !! e; caches env !! l.

(** The function object [c] is the getter that a call of [cached] with
    environment [e] installed over the user function [body]. *)
Definition memoizes (st : state) (c e : nat) (body : value → comp) : Prop :=
  callable_of st (VObject c) = Some (CachedGetter e)
  ∧ ∃ env, envs st !! e = Some env ∧ callable_of st (getter env) = Some (UserFn body).

(** The state after lines 58-67 for the descriptor object [od] at [d]. *)
Definition installed_state (st : state) (d : nat) (od : object) : state :=
  {| heap := <[d := {| props := <["get" := VObject (length (heap st))]> (props od);
                       code := code od |}]>
               (heap st ++ [{| props := ∅; code := Some (CachedGetter (length (envs st))) |}])%list;
     envs := (envs st ++ [{| caches := ∅; getter := default VUndefined (props od !! "get") |}])%list;
     handles := handles st;
     cells := cells st;
     revs := revs st;
     trace := trace st |}.

(** The state after line 63 for instance [l]. *)
Definition create_for (e l : nat) (st : state) : state :=
  match envs st !! e with
  | None => st
  | Some env =>
      let h := length (handles st) in
      let fn := {| bound_target := getter env; bound_this := VObject l |} in
      let st2 := log (EvCreateCache e (VObject l) h) (createCache fn st).2 in
      set_envs (<[e := {| caches := <[l := h]> (caches env); getter := getter env |}]>
                  (envs st2)) st2
  end.

(** The state after the engine ran the thunk of cache [h] and stored [v]. *)
Definition recomputed (h : nat) (hd : handle) (v : value) (ds : list dep) (st : state)
  : state :=
  set_handles (<[h := {| h_fn := h_fn hd; h_value := Some v; h_deps := ds |}]> (handles st))
    (log (EvRun h) st).

(** Instance [l] has cache [h] under environment [e]; the cache holds [v],
    computed from the reads [ds], none of which has changed. *)
Definition fresh (st : state) (e l h : nat) (v : value) (ds : list dep) : Prop :=
  cache_of st e l = Some h
  ∧ ∃ hd, handles st !! h = Some hd ∧ h_value hd = Some v ∧ h_deps hd = ds
          ∧ deps_current st ds = true.




(** ** Invariants of the reachable states *)

Record wf (st : state) : Prop := {
  wf_thunk : ∀ e env l h,
    envs st !! e = Some env → caches env !! l = Some h →
    ∃ hd, handles st !! h = Some hd
          ∧ h_fn hd = {| bound_target := getter env; bound_this := VObject l |};
  wf_inj : ∀ e1 e2 l1 l2 h,
    cache_of st e1 l1 = Some h → cache_of st e2 l2 = Some h → e1 = e2 ∧ l1 = l2;
  wf_creations : ∀ e l,
    creations e (VObject l) st = match cache_of st e l with Some _ => 1 | None => 0 end;
  wf_runs : ∀ h : nat, (length (handles st) ≤ h)%nat → runs h st = 0;
  wf_closure : ∀ c e,
    callable_of st (VObject c) = Some (CachedGetter e) → (e < length (envs st))%nat
}.

(** What every step keeps: function objects keep their code, environments
    keep their getter and their entries, caches keep their thunk, and a
    cache that is still valid is neither changed nor run. *)
Record extends (st st' : state) : Prop := {
  ext_code : ∀ v k, callable_of st v = Some k → callable_of st' v = Some k;
  ext_envs : ∀ e env,
    envs st !! e = Some env →
    ∃ env', envs st' !! e = Some env' ∧ getter env' = getter env
            ∧ ∀ l h, caches env !! l = Some h → caches env' !! l = Some h;
  ext_handles : ∀ h hd,
    handles st !! h = Some hd →
    ∃ hd', handles st' !! h = Some hd' ∧ h_fn hd' = h_fn hd
           ∧ (is_Some (cached_value st hd) → hd' = hd);
  ext_runs : ∀ h hd,
    handles st !! h = Some hd → is_Some (cached_value st hd) → runs h st' = runs h st
}.

(** A call changes neither the objects nor the tracked state. *)
Definition same (st st' : state) : Prop :=
  heap st' = heap st ∧ cells st' = cells st ∧ revs st' = revs st.

Definition sound (invoke : invoker) : Prop :=
  ∀ g t st o st' ds,
    wf st → invoke g t st = (o, st', ds) → wf st' ∧ extends st st' ∧ same st st'.

(** A call creates caches for its receiver only. *)
Definition only_this (invoke : invoker) : Prop :=
  ∀ g t st e l,
    wf st → cache_of st e l = None → is_Some (cache_of (invoke g t st).1.2 e l) →
    t = VObject l.

(** A cache was made from a function; a cache of a user function records
    revisions the cells have reached, and while none of them has changed it
    holds what the function returns now, from the same reads. *)
Definition coherent_handle (st : state) (hd : handle) : Prop :=
  is_Some (callable_of st (bound_target (h_fn hd)))
  ∧ ∀ body,
      callable_of st (bound_target (h_fn hd)) = Some (UserFn body) →
      Forall (λ d : dep, d.2 ≤ rev st d.1)%nat (h_deps hd)
      ∧ ∀ v, cached_value st hd = Some v →
             run st (body (bound_this (h_fn hd))) = (inl v, h_deps hd).

Definition coherent (st : state) : Prop :=
  ∀ h hd, handles st !! h = Some hd → coherent_handle st hd.

(** The user function under the function value [fn]: [fn] itself when it is
    a user function, and when [fn] is an installed getter, the user function
    under the [getter] its environment captured, through at most [n]
    installed getters. *)
Fixpoint original (n : nat) (st : state) (fn : value) : option (value → comp) :=
  match callable_of st fn with
  | Some (UserFn body) => Some body
  | Some (CachedGetter e) =>
      match n with
      | 0 => None
      | S n' => env ← envs st !! e; original n' st (getter env)
      end
  | None => None
  end.

(** A cache that holds a value was made from a function with a user
    function under it; it records revisions the cells have reached, and
    while none of them has changed it holds what the user function returns
    now, from the same reads. *)
Definition settled_handle (st : state) (hd : handle) : Prop :=
  ∀ v, h_value hd = Some v →
    ∃ n body,
      original n st (bound_target (h_fn hd)) = Some body
      ∧ Forall (λ d : dep, d.2 ≤ rev st d.1)%nat (h_deps hd)
      ∧ (deps_current st (h_deps hd) = true →
         run st (body (bound_this (h_fn hd))) = (inl v, h_deps hd)).

Definition settled (st : state) : Prop :=
  ∀ h hd, handles st !! h = Some hd → settled_handle st hd.

(** What a call with enough fuel keeps, and what a value it returns is. *)
Definition faithful (n : nat) : Prop :=
  ∀ fn this st o st' ds,
    wf st → settled st → call n fn this st = (o, st', ds) →
    settled st'
    ∧ ∀ v, o = Return v →
           ∃ m body, original m st fn = Some body ∧ run st (body this) = (inl v, ds).


(** ** Basic facts *)

Lemma extends_refl st : extends st st.
Proof. split; eauto. Qed.

Lemma same_refl st : same st st.
Proof. by repeat split. Qed.

(** The steps that change nothing. *)
Create HintDb frame.

#[local] Hint Resolve extends_refl same_refl : frame.

Lemma same_trans st1 st2 st3 : same st1 st2 → same st2 st3 → same st1 st3.
Proof. intros (?&?&?) (?&?&?). repeat split; congruence. Qed.

Lemma rev_same st st' c : revs st' = revs st → rev st' c = rev st c.
Proof. unfold rev. by intros ->. Qed.

Lemma deps_current_ext st st' ds :
  (∀ d, d ∈ ds → rev st' d.1 = rev st d.1) → deps_current st' ds = deps_current st ds.
Proof.
  unfold deps_current. induction ds as [|d ds IH]; intros H; [done|].
  simpl. rewrite (H d) by left. rewrite IH; [done|].
  intros d' Hd'. apply H. by right.
Qed.

Lemma cached_value_ext st st' hd :
  (∀ d, d ∈ h_deps hd → rev st' d.1 = rev st d.1) →
  cached_value st' hd = cached_value st hd.
Proof. intros H. unfold cached_value. by rewrite (deps_current_ext st st'). Qed.

Lemma cached_value_same st st' hd :
  revs st' = revs st → cached_value st' hd = cached_value st hd.
Proof. intros H. apply cached_value_ext. intros d _. by apply rev_same. Qed.

Lemma extends_trans st1 st2 st3 :
  revs st2 = revs st1 → extends st1 st2 → extends st2 st3 → extends st1 st3.
Proof.
  intros Hr [c1 e1 h1 r1] [c2 e2 h2 r2]. split.
  - eauto.
  - intros e env He. destruct (e1 _ _ He) as (env' & He' & Hg & Hc).
    destruct (e2 _ _ He') as (env'' & He'' & Hg' & Hc').
    exists env''. split_and!; [done|congruence|eauto].
  - intros h hd Hh. destruct (h1 _ _ Hh) as (hd' & Hh' & Hf & Hv).
    destruct (h2 _ _ Hh') as (hd'' & Hh'' & Hf' & Hv').
    exists hd''. split_and!; [done|congruence|].
    intros Hs. specialize (Hv Hs). subst hd'.
    apply Hv'. by rewrite (cached_value_same st1 st2).
  - intros h hd Hh Hs. destruct (h1 _ _ Hh) as (hd' & Hh' & Hf & Hv).
    specialize (Hv Hs). subst hd'.
    rewrite (r2 h hd), (r1 h hd); try done.
    by rewrite (cached_value_same st1 st2).
Qed.

Lemma cache_of_Some st e l h :
  cache_of st e l = Some h ↔ ∃ env, envs st !! e = Some env ∧ caches env !! l = Some h.
Proof.
  unfold cache_of. destruct (envs st !! e) as [env|]; simpl; split.
  - eauto.
  - by intros (? & [= <-] & ?).
  - done.
  - by intros (? & ? & _).
Qed.

Lemma cache_of_None st e l env :
  envs st !! e = Some env → cache_of st e l = caches env !! l.
Proof. unfold cache_of. by intros ->. Qed.

Lemma wf_init : wf init_state.
Proof. split; try done; intros; simplify_eq/=; lia. Qed.

Lemma bind_Some st g this fn :
  bind st g this = Some fn →
  fn = {| bound_target := g; bound_this := this |} ∧ is_Some (callable_of st g).
Proof. unfold bind. destruct (callable_of st g); [|done]. intros [= <-]. eauto. Qed.

Lemma wm_has_false m l : wm_has m (VObject l) = false → m !! l = None.
Proof.
  cbn. intros H%bool_decide_eq_false. by apply eq_None_not_Some.
Qed.

Lemma typeof_function st v : typeof st v = TFunction ↔ is_Some (callable_of st v).
Proof.
  destruct v as [| | | | |l]; cbn; try (split; [done | by intros ?%is_Some_None]).
  destruct (heap st !! l ≫= code); split; eauto; try done; by intros ?%is_Some_None.
Qed.

Lemma run_ext st st' m :
  cells st' = cells st → revs st' = revs st → run st' m = run st m.
Proof.
  intros Hc Hr. induction m as [v|x|c k IH]; cbn; try done.
  unfold read_cell, rev. rewrite Hc, Hr. by rewrite IH.
Qed.

Lemma run_deps_current st m : deps_current st (run st m).2 = true.
Proof.
  induction m as [v|x|c k IH]; cbn; try done.
  specialize (IH (read_cell st c)).
  destruct (run st (k (read_cell st c))) as [r ds]. cbn in *.
  by rewrite Nat.eqb_refl, IH.
Qed.

Lemma run_deps_recorded st m :
  Forall (λ d : dep, d.2 = rev st d.1) (run st m).2.
Proof.
  induction m as [v|x|c k IH]; cbn; try done.
  specialize (IH (read_cell st c)).
  destruct (run st (k (read_cell st c))) as [r ds]. cbn in *. by constructor.
Qed.

(** A run depends only on the cells it reads. *)
Lemma run_agree st st' m :
  (∀ d, d ∈ (run st m).2 → read_cell st' d.1 = read_cell st d.1 ∧ rev st' d.1 = rev st d.1) →
  run st' m = run st m.
Proof.
  induction m as [v|x|c k IH]; cbn; try done. intros Hag.
  specialize (IH (read_cell st c)).
  destruct (run st (k (read_cell st c))) as [r ds] eqn:Hr. cbn in *.
  destruct (Hag (c, rev st c)) as [Hv Hrev]; [by left|]. cbn in *.
  rewrite Hv, Hrev, IH; [done|]. intros d Hd. apply Hag. by right.
Qed.

Lemma rev_write_cell st c v c' :
  rev (write_cell c v st) c' = if decide (c = c') then S (rev st c) else rev st c'.
Proof.
  unfold rev at 1. cbn. case_decide as Hc.
  - subst. by rewrite lookup_insert_eq.
  - by rewrite lookup_insert_ne.
Qed.



Lemma call_user fuel st g this body :
  callable_of st g = Some (UserFn body) →
  call fuel g this st
  = (outcome_of (run st (body this)).1, st, (run st (body this)).2).
Proof.
  intros Hg. destruct fuel; cbn; rewrite Hg; by destruct (run st (body this)).
Qed.

Lemma call_getter fuel st c e this :
  callable_of st (VObject c) = Some (CachedGetter e) →
  call (S fuel) (VObject c) this st = descriptor_get (call fuel) e this st.
Proof.
  intros Hc. simpl. change (heap st !! c ≫= code) with (callable_of st (VObject c)).
  by rewrite Hc.
Qed.

(** ** The engine and the getter keep the invariants *)

Lemma runs_log_create st e this h h0 :
  runs h0 (log (EvCreateCache e this h) st) = runs h0 st.
Proof. done. Qed.

Lemma runs_log_run st h h0 :
  runs h0 (log (EvRun h) st) = (if bool_decide (h = h0) then 1 else 0) + runs h0 st.
Proof. done. Qed.

Lemma wf_log_run st h :
  wf st → (h < length (handles st))%nat → wf (log (EvRun h) st).
Proof.
  intros [H1 H2 H3 H4 H5] Hh. split; try done.
  intros h0 Hh0. rewrite runs_log_run, H4 by done.
  rewrite bool_decide_eq_false_2; [done | intros ->; simpl in *; lia].
Qed.

Lemma extends_log_run st h hd :
  handles st !! h = Some hd → cached_value st hd = None → extends st (log (EvRun h) st).
Proof.
  intros Hh Hv. split; eauto.
  intros h0 hd0 Hh0 [v Hv0]. rewrite runs_log_run.
  rewrite bool_decide_eq_false_2; [done | intros ->; congruence].
Qed.

Lemma wf_set_handle st h hd hd' :
  wf st → handles st !! h = Some hd → h_fn hd' = h_fn hd →
  wf (set_handles (<[h := hd']> (handles st)) st).
Proof.
  intros [H1 H2 H3 H4 H5] Hh Hf. split; try done.
  - intros e env l h0 He Hc. cbn in *.
    destruct (H1 _ _ _ _ He Hc) as (hd0 & Hh0 & Hf0).
    destruct (decide (h = h0)) as [->|Hne].
    + exists hd'. rewrite list_lookup_insert_eq by (by eapply lookup_lt_Some).
      split; [done | congruence].
    + exists hd0. by rewrite list_lookup_insert_ne.
  - intros h0 Hh0. cbn in *. rewrite length_insert in Hh0. by apply H4.
Qed.

Lemma getValue_sound invoke cache st o st' ds :
  sound invoke → wf st → getValue invoke cache st = (o, st', ds) →
  wf st' ∧ extends st st' ∧ same st st'.
Proof.
  intros Hinv Hwf. unfold getValue.
  destruct (cache ≫= _) as [[h hd]|] eqn:Hc; [|intros [= <- <- <-]; eauto with frame].
  assert (handles st !! h = Some hd) as Hh.
  { destruct cache as [h'|]; [|done]. simpl in Hc.
    destruct (handles st !! h') eqn:E; simplify_eq/=. done. }
  destruct (cached_value st hd) as [v|] eqn:Hv;
    [intros [= <- <- <-]; eauto with frame|].
  destruct (invoke _ _ _) as [[out st1] ds1] eqn:Hi.
  pose proof (lookup_lt_Some _ _ _ Hh) as Hlt.
  destruct (Hinv _ _ _ _ _ _ (wf_log_run st h Hwf Hlt) Hi) as (Hwf1 & Hext1 & Hsame1).
  pose proof (extends_log_run st h hd Hh Hv) as Hext0.
  assert (extends st st1) as Hext
    by (by apply (extends_trans st (log (EvRun h) st) st1)).
  assert (same st st1) as Hsame by done.
  destruct out as [v| |]; intros [= <- <- <-]; try done.
  destruct (ext_handles _ _ Hext h hd Hh) as (hd1 & Hh1 & Hf1 & _).
  split_and!.
  - eapply wf_set_handle; eauto.
  - destruct Hext as [c1 e1 h1 r1]. split; try done.
    intros h0 hd0 Hh0. cbn.
    destruct (decide (h = h0)) as [->|Hne].
    + simplify_eq. eexists. rewrite list_lookup_insert_eq by (by eapply lookup_lt_Some).
      split_and!; [done|done|]. rewrite Hv. by intros [? ?].
    + rewrite list_lookup_insert_ne by done. eauto.
  - done.
Qed.

Lemma creations_log_create st e this h e0 l0 :
  creations e0 (VObject l0) (log (EvCreateCache e this h) st)
  = (if bool_decide (e = e0 ∧ this = VObject l0) then 1 else 0) + creations e0 (VObject l0) st.
Proof. done. Qed.

(** Line 63 for a receiver that is not an object: the cache is created and
    [caches.set] throws. *)
Lemma create_sound_primitive st e this fn :
  wf st → (∀ l, this ≠ VObject l) →
  let st' := log (EvCreateCache e this (length (handles st))) (createCache fn st).2 in
  wf st' ∧ extends st st' ∧ same st st'.
Proof.
  intros [H1 H2 H3 H4 H5] Hthis. cbn. split_and!.
  - split; try done.
    + intros e0 env l h He Hc. cbn in *.
      destruct (H1 _ _ _ _ He Hc) as (hd & Hh & Hf).
      exists hd. by rewrite lookup_app_l by (by eapply lookup_lt_Some).
    + intros e0 l0. rewrite creations_log_create.
      rewrite bool_decide_eq_false_2 by (intros [_ ?]; by eapply Hthis).
      apply H3.
    + intros h Hh. cbn in Hh. rewrite length_app in Hh. simpl in Hh.
      rewrite runs_log_create. apply H4. cbn. lia.
  - split; try done; eauto.
    intros h hd Hh. exists hd. cbn.
    by rewrite lookup_app_l by (by eapply lookup_lt_Some).
  - done.
Qed.

(** Line 63 for an object: the cache is created and registered. *)
Lemma create_sound st e env l fn :
  wf st → envs st !! e = Some env → caches env !! l = None →
  fn = {| bound_target := getter env; bound_this := VObject l |} →
  let h := length (handles st) in
  let st2 := log (EvCreateCache e (VObject l) h) (createCache fn st).2 in
  let st' := set_envs (<[e := {| caches := <[l := h]> (caches env); getter := getter env |}]>
                         (envs st2)) st2 in
  wf st' ∧ extends st st' ∧ same st st'.
Proof.
  intros [H1 H2 H3 H4 H5] He Hnone -> h st2 st'.
  pose proof (lookup_lt_Some _ _ _ He) as Hlt.
  assert (∀ e0 l0 h0, cache_of st e0 l0 = Some h0 → (h0 < h)%nat) as Hold.
  { intros e0 l0 h0 (env0 & He0 & Hc0)%cache_of_Some.
    destruct (H1 _ _ _ _ He0 Hc0) as (hd & Hh & _). by eapply lookup_lt_Some. }
  assert (∀ e0 l0, cache_of st' e0 l0
                   = if bool_decide (e0 = e ∧ l0 = l) then Some h else cache_of st e0 l0) as Hnew.
  { intros e0 l0. unfold cache_of. cbn.
    destruct (decide (e0 = e)) as [->|Hne].
    - rewrite list_lookup_insert_eq by done. rewrite He. cbn.
      destruct (decide (l0 = l)) as [->|Hne].
      + rewrite lookup_insert_eq. by rewrite bool_decide_eq_true_2.
      + rewrite lookup_insert_ne by done.
        by rewrite bool_decide_eq_false_2 by (intros [_ ?]; done).
    - rewrite list_lookup_insert_ne by done.
      by rewrite bool_decide_eq_false_2 by (intros [? _]; done). }
  split_and!.
  - split.
    + intros e0 env0 l0 h0 He0 Hc0.
      assert (cache_of st' e0 l0 = Some h0) as Hc by (apply cache_of_Some; eauto).
      rewrite Hnew in Hc. case_bool_decide as Hd.
      * destruct Hd as [-> ->]. simplify_eq. cbn in He0.
        rewrite list_lookup_insert_eq in He0 by done. simplify_eq. cbn.
        eexists. split; [by apply list_lookup_middle|done].
      * apply cache_of_Some in Hc as (env1 & He1 & Hc1).
        destruct (H1 _ _ _ _ He1 Hc1) as (hd & Hh & Hf).
        exists hd. cbn. rewrite lookup_app_l by (by eapply lookup_lt_Some).
        split; [done|]. rewrite Hf. f_equal.
        cbn in He0. destruct (decide (e0 = e)) as [->|Hne].
        -- rewrite list_lookup_insert_eq in He0 by done. by simplify_eq.
        -- rewrite list_lookup_insert_ne in He0 by done. by simplify_eq.
    + intros e1 e2 l1 l2 h0. rewrite !Hnew.
      destruct (decide (e1 = e ∧ l1 = l)) as [[-> ->]|Hn1];
        destruct (decide (e2 = e ∧ l2 = l)) as [[-> ->]|Hn2].
      * done.
      * rewrite (bool_decide_eq_true_2 _ (conj eq_refl eq_refl)), (bool_decide_eq_false_2 _ Hn2).
        intros [= Heq] Hc. apply Hold in Hc. exfalso. unfold h in *. lia.
      * rewrite (bool_decide_eq_true_2 _ (conj eq_refl eq_refl)), (bool_decide_eq_false_2 _ Hn1).
        intros Hc [= Heq]. apply Hold in Hc. exfalso. unfold h in *. lia.
      * rewrite (bool_decide_eq_false_2 _ Hn1), (bool_decide_eq_false_2 _ Hn2).
        apply H2.
    + intros e0 l0. unfold st'. change (creations e0 (VObject l0) (set_envs _ st2))
        with (creations e0 (VObject l0) st2).
      unfold st2. rewrite creations_log_create.
      change (creations e0 (VObject l0) (createCache _ st).2)
        with (creations e0 (VObject l0) st).
      rewrite Hnew, H3.
      destruct (decide (e0 = e ∧ l0 = l)) as [[-> ->]|Hne].
      * rewrite !bool_decide_eq_true_2 by done.
        by rewrite (cache_of_None st e l env), Hnone.
      * rewrite (bool_decide_eq_false_2 (e0 = e ∧ l0 = l)) by done.
        rewrite bool_decide_eq_false_2; [done|].
        intros [-> [= ->]]. by apply Hne.
    + intros h0 Hh0. cbn in Hh0. rewrite length_app in Hh0. simpl in Hh0.
      change (runs h0 st') with (runs h0 st). apply H4. lia.
    + intros c e0 Hc. cbn. rewrite length_insert. by apply (H5 c).
  - split; try done.
    + intros e0 env0 He0. cbn.
      destruct (decide (e0 = e)) as [->|Hne].
      * rewrite list_lookup_insert_eq by done. simplify_eq.
        eexists. split_and!; [done|done|]. intros l0 h0 Hc. cbn.
        rewrite lookup_insert_ne; [done | congruence].
      * rewrite list_lookup_insert_ne by done. eauto.
    + intros h0 hd Hh. exists hd. cbn.
      by rewrite lookup_app_l by (by eapply lookup_lt_Some).
  - done.
Qed.

Lemma sound_trans st1 st2 st3 :
  wf st2 ∧ extends st1 st2 ∧ same st1 st2 →
  wf st3 ∧ extends st2 st3 ∧ same st2 st3 →
  wf st3 ∧ extends st1 st3 ∧ same st1 st3.
Proof.
  intros (_ & He & Hs) (Hw & He' & Hs'). split_and!; [done| |by eapply same_trans].
  eapply extends_trans; [|done..]. apply Hs.
Qed.

Lemma descriptor_get_sound invoke e this st o st' ds :
  sound invoke → wf st → descriptor_get invoke e this st = (o, st', ds) →
  wf st' ∧ extends st st' ∧ same st st'.
Proof.
  intros Hinv Hwf. unfold descriptor_get.
  destruct (envs st !! e) as [env|] eqn:He;
    [|intros [= <- <- <-]; eauto with frame].
  destruct (wm_has (caches env) this) eqn:Hhas; cbn -[createCache].
  { by apply getValue_sound. }
  destruct (bind st (getter env) this) as [fn|] eqn:Hb;
    [|intros [= <- <- <-]; eauto with frame].
  apply bind_Some in Hb as [-> _].
  destruct this as [| | | | |l];
    try (intros [= <- <- <-]; by apply create_sound_primitive).
  apply wm_has_false in Hhas.
  pose proof (create_sound st e env l _ Hwf He Hhas eq_refl) as Hc.
  cbn -[createCache] in *. intros Hg.
  eapply sound_trans; [exact Hc|].
  eapply getValue_sound; [done|apply Hc|exact Hg].
Qed.

Lemma call_sound fuel : sound (call fuel).
Proof.
  induction fuel as [|n IH]; intros g t st o st' ds Hwf; cbn;
    destruct (callable_of st g) as [[body|e]|];
    try (destruct (run st (body t)) as [r ds']);
    try (intros [= <- <- <-]; eauto with frame).
  by apply descriptor_get_sound.
Qed.

Lemma call_wf fuel fn this st : wf st → wf (call fuel fn this st).1.2.
Proof.
  intros Hwf. destruct (call fuel fn this st) as [[o st'] ds] eqn:Hc.
  by destruct (call_sound fuel _ _ _ _ _ _ Hwf Hc) as (? & _).
Qed.

Lemma call_extends fuel fn this st : wf st → extends st (call fuel fn this st).1.2.
Proof.
  intros Hwf. destruct (call fuel fn this st) as [[o st'] ds] eqn:Hc.
  by destruct (call_sound fuel _ _ _ _ _ _ Hwf Hc) as (_ & ? & _).
Qed.

(** ** The decorator keeps the invariants *)

Lemma install_cases descriptor st o st' :
  install descriptor st = (o, st') →
  (o = Raise TypeError ∧ st' = st)
  ∨ (o = Return VUndefined
     ∧ ∃ d od, descriptor = VObject d ∧ heap st !! d = Some od
               ∧ st' = installed_state st d od).
Proof.
  unfold install.
  destruct (get_property st descriptor "get") as [g|] eqn:Hg; [|intros [= <- <-]; by left].
  destruct (set_property _ descriptor "get" _) as [st2|] eqn:Hs; intros [= <- <-]; [|by left].
  right. split; [done|].
  destruct descriptor as [| | | | |d]; try done. cbn in Hg, Hs.
  destruct (heap st !! d) as [od|] eqn:Hd; [|done]. cbn in Hg. simplify_eq.
  rewrite lookup_app_l in Hs by (by eapply lookup_lt_Some).
  rewrite Hd in Hs. cbn in Hs. simplify_eq. by exists d, od.
Qed.





Lemma throwCachedInvalidArgsError_raises st args :
  ∃ err, throwCachedInvalidArgsError st args = Raise err.
Proof. unfold throwCachedInvalidArgsError. destruct (first_conversion_error st args); eauto. Qed.

Lemma throwCachedGetterOnlyError_raises st key :
  ∃ err, throwCachedGetterOnlyError st key = Raise err.
Proof. unfold throwCachedGetterOnlyError. destruct (conversion_error st key); eauto. Qed.


Lemma cached_cases DEBUG args st o st' :
  cached DEBUG args st = (o, st') →
  (st' = st ∧ ∃ err, o = Raise err)
  ∨ (o = Return VUndefined
     ∧ ∃ d od, nth 2 args VUndefined = VObject d ∧ heap st !! d = Some od
               ∧ st' = installed_state st d od).
Proof.
  unfold cached.
  destruct (throwCachedInvalidArgsError_raises st args) as [e1 ->].
  destruct (throwCachedGetterOnlyError_raises st (nth 1 args VUndefined)) as [e2 ->].
  destruct (DEBUG && bool_decide _); [intros [= <- <-]; left; eauto|].
  destruct (DEBUG && _); [intros [= <- <-]; left; eauto|].
  destruct (if DEBUG then _ else _) as [[|]|]; try (intros [= <- <-]; left; eauto).
  intros Hi. apply install_cases in Hi as [[-> ->]|(-> & d & od & Hd & Ho & ->)].
  - left. eauto.
  - right. split; [done|]. by exists d, od.
Qed.

Lemma install_object st d od :
  heap st !! d = Some od →
  install (VObject d) st = (Return VUndefined, installed_state st d od).
Proof.
  intros Hd. unfold install. cbn. rewrite Hd. cbn.
  rewrite lookup_app_l by (by eapply lookup_lt_Some). by rewrite Hd.
Qed.


(** The state after a successful [cached]: the getter, the environment it
    closes over, and the rest of the heap. *)
Lemma installed_state_spec st d od :
  heap st !! d = Some od →
  let st' := installed_state st d od in
  let c := length (heap st) in
  let e := length (envs st) in
  heap st' !! d = Some {| props := <["get" := VObject c]> (props od); code := code od |}
  ∧ heap st' !! c = Some {| props := ∅; code := Some (CachedGetter e) |}
  ∧ envs st' !! e = Some {| caches := ∅; getter := default VUndefined (props od !! "get") |}
  ∧ (∀ l o, heap st !! l = Some o → l ≠ d → heap st' !! l = Some o).
Proof.
  intros Hd st' c e. pose proof (lookup_lt_Some _ _ _ Hd) as Hlt. subst st' c e. cbn.
  split_and!.
  - by rewrite list_lookup_insert_eq by (rewrite length_app; lia).
  - rewrite list_lookup_insert_ne by lia. by apply list_lookup_middle.
  - by apply list_lookup_middle.
  - intros l o Hl Hne. rewrite list_lookup_insert_ne by done.
    by apply lookup_app_l_Some.
Qed.

Lemma callable_of_installed st d od v :
  heap st !! d = Some od →
  callable_of (installed_state st d od) v
  = match v with
    | VObject c =>
        if decide (c = length (heap st)) then Some (CachedGetter (length (envs st)))
        else callable_of st v
    | _ => None
    end.
Proof.
  intros Hd. destruct v as [| | | | |c]; try done. cbn.
  pose proof (lookup_lt_Some _ _ _ Hd) as Hlt.
  destruct (decide (d = c)) as [->|Hne].
  - rewrite list_lookup_insert_eq by (rewrite length_app; lia).
    rewrite Hd. cbn. case_decide; [lia|done].
  - rewrite list_lookup_insert_ne by done. case_decide as Hc.
    + subst c. by rewrite list_lookup_middle.
    + destruct (decide (c < length (heap st))%nat).
      * by rewrite lookup_app_l.
      * rewrite !lookup_ge_None_2; [done|lia|rewrite length_app; simpl; lia].
Qed.

Lemma cache_of_installed st d od e l :
  cache_of (installed_state st d od) e l = cache_of st e l.
Proof.
  unfold cache_of. cbn.
  destruct (decide (e < length (envs st))%nat).
  - by rewrite lookup_app_l.
  - rewrite (lookup_ge_None_2 (envs st)) by lia.
    destruct (decide (e = length (envs st))) as [->|].
    + by rewrite list_lookup_middle.
    + rewrite lookup_ge_None_2; [done|rewrite length_app; simpl; lia].
Qed.

Lemma wf_installed st d od :
  wf st → heap st !! d = Some od → wf (installed_state st d od).
Proof.
  intros [H1 H2 H3 H4 H5] Hd. split.
  - intros e env l h He Hc.
    assert (cache_of (installed_state st d od) e l = Some h) as Hco
      by (apply cache_of_Some; eauto).
    rewrite cache_of_installed in Hco. apply cache_of_Some in Hco as (env0 & He0 & Hc0).
    cbn in He. rewrite lookup_app_l in He by (by eapply lookup_lt_Some). simplify_eq.
    by apply (H1 e).
  - intros e1 e2 l1 l2 h. rewrite !cache_of_installed. apply H2.
  - intros e l. rewrite cache_of_installed. apply H3.
  - apply H4.
  - intros c e. rewrite callable_of_installed by done. cbn. rewrite length_app. simpl.
    case_decide; [intros [= <-]; lia|]. intros Hc%H5. lia.
Qed.

Lemma extends_installed st d od :
  heap st !! d = Some od → extends st (installed_state st d od).
Proof.
  intros Hd. split.
  - intros v k Hv. rewrite callable_of_installed by done.
    destruct v as [| | | | |c]; try done. case_decide as Hc; [|done].
    subst c. cbn in Hv. by rewrite lookup_ge_None_2 in Hv.
  - intros e env He. exists env. cbn. by rewrite lookup_app_l by (by eapply lookup_lt_Some).
  - eauto.
  - done.
Qed.

(** ** Every step keeps the invariants *)

Lemma callable_of_snoc st o v k :
  callable_of st v = Some k → callable_of (set_heap (heap st ++ [o]) st) v = Some k.
Proof.
  destruct v as [| | | | |c]; try done. cbn.
  destruct (heap st !! c) as [oc|] eqn:Hc; [|done].
  by rewrite (lookup_app_l_Some _ _ _ _ Hc).
Qed.

Lemma wf_snoc st o :
  wf st → (∀ e, code o ≠ Some (CachedGetter e)) → wf (set_heap (heap st ++ [o]) st).
Proof.
  intros [H1 H2 H3 H4 H5] Ho. split; try done.
  intros c e. cbn. intros Hc. apply (H5 c). cbn.
  destruct (decide (c < length (heap st))%nat).
  - by rewrite lookup_app_l in Hc.
  - destruct (decide (c = length (heap st))) as [->|].
    + rewrite list_lookup_middle in Hc by done. cbn in Hc. by apply Ho in Hc.
    + rewrite lookup_ge_None_2 in Hc; [done|rewrite length_app; simpl; lia].
Qed.

Lemma extends_snoc st o : extends st (set_heap (heap st ++ [o]) st).
Proof. split; eauto using callable_of_snoc. Qed.

Lemma callable_of_set_property st t k x st' :
  set_property st t k x = Some st' → ∀ v, callable_of st' v = callable_of st v.
Proof.
  destruct t as [| | | | |l]; try done. cbn.
  destruct (heap st !! l) as [o|] eqn:Hl; [|done]. cbn. intros [= <-] v.
  destruct v as [| | | | |c]; try done. cbn.
  destruct (decide (l = c)) as [->|Hne].
  - rewrite list_lookup_insert_eq by (by eapply lookup_lt_Some). by rewrite Hl.
  - by rewrite list_lookup_insert_ne.
Qed.

Lemma set_property_rest st t k x st' :
  set_property st t k x = Some st' →
  envs st' = envs st ∧ handles st' = handles st ∧ cells st' = cells st
  ∧ revs st' = revs st ∧ trace st' = trace st.
Proof.
  destruct t as [| | | | |l]; try done. cbn.
  destruct (heap st !! l) as [o|]; [|done]. by intros [= <-].
Qed.

Lemma wf_set_property st t k x st' :
  wf st → set_property st t k x = Some st' → wf st'.
Proof.
  intros [H1 H2 H3 H4 H5] Hs.
  pose proof (callable_of_set_property _ _ _ _ _ Hs) as Hc.
  destruct (set_property_rest _ _ _ _ _ Hs) as (He & Hh & _ & _ & Ht).
  split.
  - rewrite He, Hh. apply H1.
  - unfold cache_of. rewrite He. apply H2.
  - unfold creations, cache_of. rewrite He, Ht. apply H3.
  - unfold runs. rewrite Hh, Ht. apply H4.
  - intros c e. rewrite Hc, He. apply H5.
Qed.

Lemma extends_set_property st t k x st' :
  set_property st t k x = Some st' → extends st st'.
Proof.
  intros Hs.
  pose proof (callable_of_set_property _ _ _ _ _ Hs) as Hc.
  destruct (set_property_rest _ _ _ _ _ Hs) as (He & Hh & _ & _ & Ht).
  split.
  - intros v c. by rewrite Hc.
  - rewrite He. eauto.
  - rewrite Hh. eauto.
  - unfold runs. by rewrite Ht.
Qed.

Lemma wf_write_cell st c v : wf st → wf (write_cell c v st).
Proof. by intros []. Qed.

Lemma extends_write_cell st c v : extends st (write_cell c v st).
Proof. split; eauto. Qed.

Lemma step_sound o st : wf st → wf (step o st) ∧ extends st (step o st).
Proof.
  intros Hwf. destruct o as [ps|body|t k v|c v|dbg args|fuel fn this]; cbn -[cached].
  - split; [by apply wf_snoc | apply extends_snoc].
  - split; [by apply wf_snoc | apply extends_snoc].
  - destruct (set_property st t k v) as [st'|] eqn:Hs; cbn.
    + eauto using wf_set_property, extends_set_property.
    + eauto using extends_refl.
  - eauto using wf_write_cell, extends_write_cell.
  - destruct (cached dbg args st) as [o st'] eqn:Hc. cbn.
    apply cached_cases in Hc as [[-> _]|(_ & d & od & _ & Hd & ->)].
    + eauto using extends_refl.
    + eauto using wf_installed, extends_installed.
  - destruct (call fuel fn this st) as [[o st'] ds] eqn:Hc. cbn.
    by destruct (call_sound fuel _ _ _ _ _ _ Hwf Hc) as (? & ? & _).
Qed.

Lemma reachable_wf st : reachable st → wf st.
Proof.
  induction 1 as [|o st _ IH]; [apply wf_init | by apply step_sound].
Qed.

Lemma reachable_steps os st : reachable st → reachable (steps os st).
Proof.
  revert st. induction os as [|o os IH]; intros st Hst; [done|].
  cbn. apply IH. by constructor.
Qed.

Lemma wf_steps os st : wf st → wf (steps os st).
Proof.
  revert st. induction os as [|o os IH]; intros st Hwf; [done|].
  cbn. apply IH. by apply step_sound.
Qed.


Lemma cache_of_extends st st' e l h :
  extends st st' → cache_of st e l = Some h → cache_of st' e l = Some h.
Proof.
  intros Hext (env & He & Hc)%cache_of_Some.
  destruct (ext_envs _ _ Hext _ _ He) as (env' & He' & _ & Hc').
  apply cache_of_Some. eauto.
Qed.

Lemma cache_of_steps os st e l h :
  wf st → cache_of st e l = Some h → cache_of (steps os st) e l = Some h.
Proof.
  revert st. induction os as [|o os IH]; intros st Hwf Hc; [done|].
  change (steps (o :: os) st) with (steps os (step o st)).
  destruct (step_sound o st Hwf) as [Hwf' Hext].
  apply IH; [done|]. by eapply cache_of_extends.
Qed.

Lemma cache_of_decorate DEBUG args st e l :
  cache_of (step (OpDecorate DEBUG args) st) e l = cache_of st e l.
Proof.
  cbn -[cached]. destruct (cached DEBUG args st) as [o st'] eqn:Hc. cbn.
  apply cached_cases in Hc as [[-> _]|(_ & d & od & _ & _ & ->)]; [done|].
  apply cache_of_installed.
Qed.

Lemma memoizes_extends st st' c e body :
  memoizes st c e body → extends st st' → memoizes st' c e body.
Proof.
  intros (Hc & env & He & Hg) Hext. split; [by eapply ext_code|].
  destruct (ext_envs _ _ Hext _ _ He) as (env' & He' & Hg' & _).
  exists env'. split; [done|]. rewrite Hg'. by eapply ext_code.
Qed.


(** ** Reading a memoized property *)

(** A read by an instance that has a cache: the cached value if nothing the
    computation read has changed, else the original getter is run on the
    instance. *)
Lemma read_initialized fuel st c e body l h hd :
  wf st → memoizes st c e body →
  cache_of st e l = Some h → handles st !! h = Some hd →
  call (S fuel) (VObject c) (VObject l) st
  = match cached_value st hd with
    | Some v => (Return v, st, h_deps hd)
    | None =>
        match run st (body (VObject l)) with
        | (inl v, ds) => (Return v, recomputed h hd v ds st, ds)
        | (inr x, _) => (Raise (Thrown x), log (EvRun h) st, [])
        end
    end.
Proof.
  intros Hwf (Hc & env & He & Hg) Hco Hh.
  rewrite (cache_of_None _ _ _ _ He) in Hco.
  destruct (wf_thunk _ Hwf _ _ _ _ He Hco) as (hd' & Hh' & Hf). simplify_eq.
  rewrite (call_getter _ _ _ e) by done. unfold descriptor_get. rewrite He.
  cbn -[call]. rewrite bool_decide_eq_true_2 by eauto. cbn -[call].
  unfold getValue. rewrite He. cbn -[call]. rewrite Hco. cbn -[call]. rewrite Hh.
  cbn -[call]. destruct (cached_value st hd) as [v|]; [done|].
  rewrite Hf. cbn -[call].
  rewrite (call_user fuel (log (EvRun h) st) _ _ body) by done.
  rewrite (run_ext st (log (EvRun h) st)) by done.
  destruct (run st (body (VObject l))) as [[v|x] ds]; cbn; [|done].
  unfold recomputed. by rewrite Hf.
Qed.

(** The first read by an instance creates and registers its cache, then
    reads as above. *)
Lemma read_uninitialized fuel st c e l :
  callable_of st (VObject c) = Some (CachedGetter e) →
  (∃ env, envs st !! e = Some env ∧ is_Some (callable_of st (getter env))) →
  cache_of st e l = None →
  call (S fuel) (VObject c) (VObject l) st
  = call (S fuel) (VObject c) (VObject l) (create_for e l st).
Proof.
  intros Hc (env & He & [k Hg]) Hco.
  rewrite (cache_of_None _ _ _ _ He) in Hco.
  pose proof (lookup_lt_Some _ _ _ He) as Hlt.
  unfold create_for. rewrite He.
  rewrite !(call_getter _ _ _ e) by done.
  unfold descriptor_get at 1. rewrite He.
  cbn -[call]. rewrite bool_decide_eq_false_2 by (rewrite Hco; by intros [? ?]).
  cbn -[call]. unfold bind. rewrite Hg. cbn -[call].
  unfold descriptor_get. cbn -[call].
  rewrite list_lookup_insert_eq by done. cbn -[call].
  rewrite lookup_insert_eq. rewrite bool_decide_eq_true_2 by eauto. cbn -[call].
  rewrite list_lookup_insert_eq by done. cbn -[call]. by rewrite lookup_insert_eq.
Qed.

Lemma create_for_sound st e env l :
  wf st → envs st !! e = Some env → caches env !! l = None →
  wf (create_for e l st) ∧ extends st (create_for e l st) ∧ same st (create_for e l st).
Proof.
  intros Hwf He Hc. unfold create_for. rewrite He.
  by apply (create_sound st e env l).
Qed.

Lemma create_for_cache st e env l :
  envs st !! e = Some env →
  cache_of (create_for e l st) e l = Some (length (handles st))
  ∧ handles (create_for e l st) !! length (handles st)
    = Some {| h_fn := {| bound_target := getter env; bound_this := VObject l |};
              h_value := None; h_deps := [] |}
  ∧ (∀ h, runs h (create_for e l st) = runs h st).
Proof.
  intros He. pose proof (lookup_lt_Some _ _ _ He) as Hlt.
  unfold create_for, cache_of. rewrite He. cbn. split_and!; [|by apply list_lookup_middle|done].
  rewrite list_lookup_insert_eq by done. cbn. by rewrite lookup_insert_eq.
Qed.

(** Every read by an object is a read by an instance that has a cache: the
    first read creates the cache, empty, and then reads. *)
Lemma read_as_initialized fuel st c e body l :
  wf st → memoizes st c e body →
  ∃ st0 h hd,
    call (S fuel) (VObject c) (VObject l) st = call (S fuel) (VObject c) (VObject l) st0
    ∧ wf st0 ∧ memoizes st0 c e body ∧ cache_of st0 e l = Some h
    ∧ handles st0 !! h = Some hd
    ∧ run st0 (body (VObject l)) = run st (body (VObject l))
    ∧ (∀ h', runs h' st0 = runs h' st)
    ∧ (is_Some (cached_value st0 hd) → st0 = st).
Proof.
  intros Hwf Hm. pose proof Hm as (Hcode & env & He & Hg).
  destruct (cache_of st e l) as [h|] eqn:Hc.
  - pose proof Hc as Hc'. rewrite (cache_of_None _ _ _ _ He) in Hc'.
    destruct (wf_thunk _ Hwf _ _ _ _ He Hc') as (hd & Hh & _).
    exists st, h, hd. by split_and!.
  - pose proof Hc as Hc'. rewrite (cache_of_None _ _ _ _ He) in Hc'.
    destruct (create_for_sound st e env l Hwf He Hc') as (Hwf0 & Hext0 & Hh0 & Hc0 & Hr0).
    destruct (create_for_cache st e env l He) as (Hco & Hhd & Hruns).
    exists (create_for e l st), (length (handles st)). eexists.
    split_and!; try done.
    + apply read_uninitialized; eauto.
    + by eapply memoizes_extends.
    + by apply run_ext.
    + cbn. by intros ?%is_Some_None.
Qed.

(** A read returns a value that is cached and valid, changing nothing, or
    it is the outcome of the original getter applied to the receiver. *)
Lemma read_outcome fuel st c e body l :
  wf st → memoizes st c e body →
  let r := call (S fuel) (VObject c) (VObject l) st in
  (∃ v, r.1.1 = Return v ∧ r.1.2 = st)
  ∨ r.1.1 = outcome_of (run st (body (VObject l))).1.
Proof.
  intros Hwf Hm r. subst r.
  destruct (read_as_initialized fuel st c e body l Hwf Hm)
    as (st0 & h & hd & -> & Hwf0 & Hm0 & Hc0 & Hh0 & Hrun & Hruns & Hsame).
  rewrite (read_initialized fuel st0 c e body l h hd) by done.
  destruct (cached_value st0 hd) as [v|] eqn:Hv.
  - left. rewrite (Hsame (mk_is_Some _ _ eq_refl)). eauto.
  - right. rewrite <- Hrun. by destruct (run st0 (body (VObject l))) as [[w|x] ds].
Qed.

(** The first read by an object registers the cache it creates. *)
Lemma first_read_registers fuel st c e env l :
  wf st →
  callable_of st (VObject c) = Some (CachedGetter e) →
  envs st !! e = Some env → is_Some (callable_of st (getter env)) →
  caches env !! l = None →
  let st' := (call (S fuel) (VObject c) (VObject l) st).1.2 in
  cache_of st' e l = Some (length (handles st))
  ∧ ∃ hd, handles st' !! length (handles st) = Some hd
          ∧ h_fn hd = {| bound_target := getter env; bound_this := VObject l |}.
Proof.
  intros Hwf Hc He Hg Hnone st'. subst st'.
  rewrite (read_uninitialized fuel st c e l); [|done|by eauto|by rewrite (cache_of_None _ _ _ _ He)].
  destruct (create_for_sound st e env l Hwf He Hnone) as (Hwf0 & Hext0 & _).
  destruct (create_for_cache st e env l He) as (Hco & Hhd & _).
  pose proof (call_extends (S fuel) (VObject c) (VObject l) _ Hwf0) as Hext.
  split; [by eapply cache_of_extends|].
  destruct (ext_handles _ _ Hext _ _ Hhd) as (hd' & Hh' & Hf & _). eauto.
Qed.

(** A read that finds no valid cached value and whose getter throws: the
    thrown value is raised, the engine ran the thunk once, and the cache is
    left as it was. *)
Lemma failing_read fuel st c e body l h hd x :
  wf st → memoizes st c e body →
  cache_of st e l = Some h → handles st !! h = Some hd →
  cached_value st hd = None →
  (run st (body (VObject l))).1 = inr x →
  call (S fuel) (VObject c) (VObject l) st = (Raise (Thrown x), log (EvRun h) st, []).
Proof.
  intros Hwf Hm Hc Hh Hv Hr.
  rewrite (read_initialized fuel st c e body l h hd) by done. rewrite Hv.
  destruct (run st (body (VObject l))) as [[v|y] ds]; cbn in Hr; by simplify_eq.
Qed.

(** Such a failure is not cached: the same read fails the same way again,
    with another run of the thunk. *)
Lemma failing_read_twice fuel st c e body l h hd x :
  wf st → memoizes st c e body →
  cache_of st e l = Some h → handles st !! h = Some hd →
  cached_value st hd = None →
  (run st (body (VObject l))).1 = inr x →
  let r := call (S fuel) (VObject c) (VObject l) st in
  let r' := call (S fuel) (VObject c) (VObject l) r.1.2 in
  r.1.1 = Raise (Thrown x) ∧ cache_of r.1.2 e l = Some h ∧ runs h r.1.2 = S (runs h st)
  ∧ r'.1.1 = Raise (Thrown x) ∧ runs h r'.1.2 = S (runs h r.1.2).
Proof.
  intros Hwf Hm Hc Hh Hv Hr r r'. subst r r'.
  rewrite (failing_read fuel st c e body l h hd x) by done. cbn -[call].
  assert (wf (log (EvRun h) st)) as Hwf'.
  { apply wf_log_run; [done | by eapply lookup_lt_Some]. }
  rewrite (failing_read fuel (log (EvRun h) st) c e body l h hd x); try done.
  - cbn. unfold runs. cbn. rewrite !bool_decide_eq_true_2 by done. by split_and!.
  - by rewrite (run_ext st (log (EvRun h) st)).
Qed.

(** ** Valid caches *)


Lemma fresh_cached_value st hd v :
  h_value hd = Some v → deps_current st (h_deps hd) = true → cached_value st hd = Some v.
Proof. unfold cached_value. by intros -> ->. Qed.

Lemma fresh_read fuel st c e body l h v ds :
  wf st → memoizes st c e body → fresh st e l h v ds →
  call (S fuel) (VObject c) (VObject l) st = (Return v, st, ds).
Proof.
  intros Hwf Hm (Hc & hd & Hh & Hv & <- & Hd).
  rewrite (read_initialized fuel st c e body l h hd) by done.
  by rewrite (fresh_cached_value st hd v).
Qed.

Lemma recomputed_fresh st e l h hd m :
  cache_of st e l = Some h → handles st !! h = Some hd →
  ∀ v ds, run st m = (inl v, ds) →
  fresh (recomputed h hd v ds st) e l h v ds ∧ runs h (recomputed h hd v ds st) = S (runs h st).
Proof.
  intros Hc Hh v ds Hr. split.
  - split; [done|]. eexists. cbn.
    rewrite list_lookup_insert_eq by (by eapply lookup_lt_Some).
    split_and!; try done.
    pose proof (run_deps_current st m) as Hd. rewrite Hr in Hd. exact Hd.
  - unfold recomputed, runs. cbn. by rewrite bool_decide_eq_true_2.
Qed.

(** The first read of an instance: its cache is created, the original
    getter is run on the instance, and its value is cached. *)
Lemma first_read fuel st c e body l v ds :
  wf st → memoizes st c e body → cache_of st e l = None →
  run st (body (VObject l)) = (inl v, ds) →
  let h := length (handles st) in
  let r := call (S fuel) (VObject c) (VObject l) st in
  r.1.1 = Return v ∧ r.2 = ds ∧ fresh r.1.2 e l h v ds ∧ runs h r.1.2 = 1.
Proof.
  intros Hwf Hm Hc Hr h r. subst r.
  pose proof Hm as (Hcode & env & He & Hg).
  rewrite (read_uninitialized fuel st c e l) by eauto.
  rewrite (cache_of_None _ _ _ _ He) in Hc.
  destruct (create_for_sound st e env l Hwf He Hc) as (Hwf0 & Hext0 & Hh0 & Hc0 & Hr0).
  destruct (create_for_cache st e env l He) as (Hco & Hhd & Hruns).
  pose proof (memoizes_extends _ _ _ _ _ Hm Hext0) as Hm0.
  rewrite (read_initialized fuel _ c e body l h _ Hwf0 Hm0 Hco Hhd).
  cbn -[create_for recomputed]. rewrite (run_ext st (create_for e l st)) by done.
  rewrite Hr. cbn -[create_for recomputed]. split_and!; try done.
  - eapply recomputed_fresh; [done|done|].
    rewrite (run_ext st (create_for e l st)) by done. exact Hr.
  - unfold recomputed, runs. cbn -[create_for]. rewrite bool_decide_eq_true_2 by done.
    fold (runs h (create_for e l st)). rewrite Hruns. by rewrite (wf_runs _ Hwf).
Qed.






(** ** Only a read creates a cache *)

Lemma getValue_only_this invoke h hd this st :
  only_this invoke → wf st →
  handles st !! h = Some hd → bound_this (h_fn hd) = this →
  ∀ e l, cache_of st e l = None →
         is_Some (cache_of (getValue invoke (Some h) st).1.2 e l) → this = VObject l.
Proof.
  intros Hinv Hwf Hh Hthis e l Hnone. unfold getValue. cbn. rewrite Hh. cbn.
  destruct (cached_value st hd) as [v|]; cbn; [rewrite Hnone; by intros [? ?]|].
  rewrite Hthis.
  assert (wf (log (EvRun h) st)) as Hwf'.
  { apply wf_log_run; [done | by eapply lookup_lt_Some]. }
  pose proof (Hinv (bound_target (h_fn hd)) this (log (EvRun h) st) e l Hwf' Hnone) as Hi.
  destruct (invoke _ _ _) as [[out st1] ds]. cbn in Hi.
  by destruct out.
Qed.

Lemma descriptor_get_only_this invoke e0 this st :
  only_this invoke → wf st →
  ∀ e l, cache_of st e l = None →
         is_Some (cache_of (descriptor_get invoke e0 this st).1.2 e l) → this = VObject l.
Proof.
  intros Hinv Hwf e l Hnone. unfold descriptor_get.
  destruct (envs st !! e0) as [env|] eqn:He; [|cbn; rewrite Hnone; by intros [? ?]].
  destruct (wm_has (caches env) this) eqn:Hhas; cbn -[createCache].
  - destruct this as [| | | | |l0]; try done. cbn in Hhas.
    apply bool_decide_eq_true in Hhas as [h Hh]. rewrite He. cbn. rewrite Hh.
    destruct (wf_thunk _ Hwf _ _ _ _ He Hh) as (hd & Hhd & Hf).
    apply (getValue_only_this invoke h hd); try done. by rewrite Hf.
  - destruct (bind st (getter env) this) as [fn|] eqn:Hb;
      [|cbn; rewrite Hnone; by intros [? ?]].
    apply bind_Some in Hb as [-> _].
    destruct this as [| | | | |l0];
      try (unfold cache_of in *; cbn; rewrite Hnone; by intros [? ?]).
    apply wm_has_false in Hhas.
    destruct (create_for_sound st e0 env l0 Hwf He Hhas) as (Hwf0 & _).
    destruct (create_for_cache st e0 env l0 He) as (Hco & Hhd & _).
    destruct (decide (e = e0 ∧ l = l0)) as [[-> ->]|Hne]; [done|].
    assert (cache_of (create_for e0 l0 st) e l = None) as Hnone0.
    { unfold create_for. rewrite He. unfold cache_of. cbn.
      destruct (decide (e = e0)) as [->|].
      - rewrite list_lookup_insert_eq by (by eapply lookup_lt_Some). cbn.
        rewrite lookup_insert_ne by (intros ->; by apply Hne).
        by rewrite (cache_of_None _ _ _ _ He) in Hnone.
      - by rewrite list_lookup_insert_ne. }
    unfold create_for in Hwf0, Hco, Hhd, Hnone0. rewrite He in Hwf0, Hco, Hhd, Hnone0.
    cbn -[createCache] in *.
    unfold cache_of in Hco. cbn in Hco.
    destruct (_ !! e0) as [env'|] eqn:He'; [|done]. cbn in Hco |- *. rewrite Hco.
    eapply getValue_only_this; try done.
Qed.

Lemma call_only_this fuel : only_this (call fuel).
Proof.
  unfold only_this.
  induction fuel as [|n IH]; intros g t st e l Hwf Hnone; cbn;
    destruct (callable_of st g) as [[body|e0]|];
    try (destruct (run st (body t)) as [r ds']);
    try (cbn; rewrite Hnone; by intros [? ?]).
  by apply descriptor_get_only_this.
Qed.

(** Of all operations, only a call with receiver [l] gives [l] a cache. *)
Lemma only_reads_initialize o st e l :
  wf st → cache_of st e l = None → is_Some (cache_of (step o st) e l) →
  ∃ fuel fn, o = OpCall fuel fn (VObject l).
Proof.
  intros Hwf Hnone.
  assert (∀ st', envs st' = envs st → is_Some (cache_of st' e l) → False) as Hsame.
  { intros st' He. unfold cache_of in *. rewrite He, Hnone. by intros [? ?]. }
  destruct o as [ps|body|t k v|c v|dbg args|fuel fn this].
  - intros Hs. by apply Hsame in Hs.
  - intros Hs. by apply Hsame in Hs.
  - cbn. destruct (set_property st t k v) as [st'|] eqn:Hs; cbn.
    + apply set_property_rest in Hs as (He & _). intros Hi. by apply Hsame in Hi.
    + intros Hi. by apply Hsame in Hi.
  - intros Hs. by apply Hsame in Hs.
  - rewrite cache_of_decorate, Hnone. by intros [? ?].
  - intros Hs. apply call_only_this in Hs as ->; eauto.
Qed.

(** ** What a read can raise *)




(** ** Memoization is transparent *)

Lemma coherent_init : coherent init_state.
Proof. intros h hd Hh. done. Qed.

(** Coherence depends on the code of functions and on the cells. *)
Lemma coherent_handle_frame st st' hd :
  cells st' = cells st → revs st' = revs st →
  (∀ v k, callable_of st v = Some k → callable_of st' v = Some k) →
  coherent_handle st hd → coherent_handle st' hd.
Proof.
  intros Hc Hr Hcode [[k Hk] Hbody]. split; [by rewrite (Hcode _ _ Hk)|].
  intros body Hb. rewrite (Hcode _ _ Hk) in Hb. simplify_eq.
  destruct (Hbody body Hk) as [Hle Hrun]. split.
  - eapply Forall_impl; [done|]. intros d. cbn. by rewrite (rev_same st st').
  - intros v. rewrite (cached_value_same st st'), (run_ext st st') by done. apply Hrun.
Qed.

Lemma coherent_frame st st' :
  coherent st →
  handles st' = handles st → cells st' = cells st → revs st' = revs st →
  (∀ v k, callable_of st v = Some k → callable_of st' v = Some k) →
  coherent st'.
Proof.
  intros Hco Hh Hc Hr Hcode h hd Hhd. rewrite Hh in Hhd.
  apply (coherent_handle_frame st); [done|done|done|]. by apply (Hco h).
Qed.

Lemma coherent_write_cell st c x : coherent st → coherent (write_cell c x st).
Proof.
  intros Hco h hd Hhd. destruct (Hco h hd Hhd) as [Hk Hbody]. split; [exact Hk|].
  intros body Hb. destruct (Hbody body Hb) as [Hle Hrun]. split.
  - eapply Forall_impl; [done|]. intros d. cbn. rewrite rev_write_cell.
    case_decide; [subst; lia|done].
  - intros v Hv. unfold cached_value in Hv.
    destruct (deps_current (write_cell c x st) (h_deps hd)) eqn:Hd; [|done].
    assert (∀ d, d ∈ h_deps hd → c ≠ d.1) as Hnot.
    { intros d Hin ->. unfold deps_current in Hd. rewrite forallb_forall in Hd.
      specialize (Hd d). rewrite list_elem_of_In in Hin. specialize (Hd Hin).
      rewrite Nat.eqb_eq, rev_write_cell, decide_True in Hd by done.
      rewrite Forall_forall in Hle. specialize (Hle d). rewrite <- list_elem_of_In in Hin.
      specialize (Hle Hin). cbn in Hle. lia. }
    assert (cached_value st hd = Some v) as Hv'.
    { unfold cached_value. rewrite <- (deps_current_ext st (write_cell c x st)), Hd; [done|].
      intros d Hin. rewrite rev_write_cell. by rewrite decide_False by (by apply Hnot). }
    specialize (Hrun v Hv'). rewrite <- Hrun. apply run_agree. rewrite Hrun. cbn.
    intros d Hin. specialize (Hnot d Hin). split.
    + unfold read_cell. cbn. by rewrite lookup_insert_ne.
    + rewrite rev_write_cell. by rewrite decide_False.
Qed.

Lemma coherent_log st ev : coherent st → coherent (log ev st).
Proof. intros Hco. by apply (coherent_frame st). Qed.

Lemma coherent_createCache st fn :
  is_Some (callable_of st (bound_target fn)) → coherent st →
  coherent (createCache fn st).2.
Proof.
  intros Hg Hco h hd Hh. cbn in Hh. apply lookup_app_Some in Hh as [Hh|[_ Hh]].
  - apply (coherent_handle_frame st); [done|done|done|]. by apply (Hco h).
  - destruct (h - length (handles st)) as [|n]; [|done]. cbn in Hh. simplify_eq.
    split; [exact Hg|]. intros body _. split; [by constructor|done].
Qed.

Lemma getValue_coherent n cache st o st' ds :
  (∀ g t st o st' ds, wf st → coherent st → call n g t st = (o, st', ds) → coherent st') →
  wf st → coherent st → getValue (call n) cache st = (o, st', ds) → coherent st'.
Proof.
  intros IH Hwf Hco. unfold getValue.
  destruct (cache ≫= _) as [[h hd]|] eqn:Hc; [|by intros [= <- <- <-]].
  assert (handles st !! h = Some hd) as Hh.
  { destruct cache as [h'|]; [|done]. simpl in Hc.
    destruct (handles st !! h') eqn:E; simplify_eq/=. done. }
  destruct (cached_value st hd) as [v|] eqn:Hv; [by intros [= <- <- <-]|].
  destruct (call n _ _ _) as [[out st1] ds1] eqn:Hi.
  pose proof (lookup_lt_Some _ _ _ Hh) as Hlt.
  pose proof (wf_log_run st h Hwf Hlt) as Hwf0.
  pose proof (coherent_log st (EvRun h) Hco) as Hco0.
  pose proof (IH _ _ _ _ _ _ Hwf0 Hco0 Hi) as Hco1.
  destruct (call_sound n _ _ _ _ _ _ Hwf0 Hi) as (Hwf1 & Hext1 & Hheap & Hcells & Hrevs).
  destruct out as [v| |]; intros [= <- <- <-]; try done.
  set (hd' := {| h_fn := h_fn hd; h_value := Some v; h_deps := ds1 |}).
  set (st2 := set_handles (<[h := hd']> (handles st1)) st1).
  assert (∀ w, callable_of st2 w = callable_of st w) as Hcode.
  { intros [| | | | |c]; try done. cbn. by rewrite Hheap. }
  assert (cells st2 = cells st ∧ revs st2 = revs st) as [Hc2 Hr2] by done.
  intros h0 hd0 Hh0. cbn in Hh0. destruct (decide (h = h0)) as [<-|Hne].
  - destruct (ext_handles _ _ Hext1 h hd Hh) as (hd1 & Hh1 & _).
    rewrite list_lookup_insert_eq in Hh0 by (by eapply lookup_lt_Some).
    injection Hh0 as <-.
    destruct (Hco h hd Hh) as [[k Hk] _].
    split; [rewrite Hcode; eauto|].
    intros body Hb. rewrite Hcode in Hb. cbn in Hb.
    rewrite (call_user n (log (EvRun h) st) _ _ body) in Hi by done.
    rewrite (run_ext st (log (EvRun h) st)) in Hi by done.
    injection Hi as Ho _ Hds. rewrite (run_ext st st2) by done. cbn [hd' h_deps h_fn].
    split.
    + rewrite <- Hds. eapply Forall_impl; [apply run_deps_recorded|].
      intros d. cbn. intros ->. rewrite (rev_same st st2) by done. lia.
    + intros w. unfold cached_value. cbn [hd' h_deps h_value]. rewrite <- Hds.
      rewrite (deps_current_ext st st2) by (intros; by apply rev_same).
      rewrite run_deps_current. intros [= <-].
      destruct (run st (body (bound_this (h_fn hd)))) as [[w|x] ds]; cbn in *; by simplify_eq.
  - rewrite list_lookup_insert_ne in Hh0 by done.
    apply (coherent_handle_frame st1); [done|done| |by apply (Hco1 h0)].
    intros w k Hk. rewrite Hcode. rewrite <- Hk.
    destruct w as [| | | | |c]; try done. cbn. by rewrite Hheap.
Qed.

Lemma descriptor_get_coherent n e this st o st' ds :
  (∀ g t st o st' ds, wf st → coherent st → call n g t st = (o, st', ds) → coherent st') →
  wf st → coherent st → descriptor_get (call n) e this st = (o, st', ds) → coherent st'.
Proof.
  intros IH Hwf Hco. unfold descriptor_get.
  destruct (envs st !! e) as [env|] eqn:He; [|by intros [= <- <- <-]].
  destruct (wm_has (caches env) this) eqn:Hhas; cbn -[createCache].
  { by apply getValue_coherent. }
  destruct (bind st (getter env) this) as [fn|] eqn:Hb; [|by intros [= <- <- <-]].
  apply bind_Some in Hb as [-> Hg].
  pose proof (coherent_createCache st {| bound_target := getter env; bound_this := this |}
                Hg Hco) as Hco1.
  destruct this as [| | | | |l];
    try (intros [= <- <- <-]; by apply coherent_log).
  apply wm_has_false in Hhas.
  pose proof (create_sound st e env l _ Hwf He Hhas eq_refl) as (Hwf2 & _).
  cbn -[createCache] in *.
  apply getValue_coherent; [done|done|].
  by apply (coherent_frame (createCache {| bound_target := getter env;
                                           bound_this := VObject l |} st).2).
Qed.

Lemma call_coherent fuel g t st o st' ds :
  wf st → coherent st → call fuel g t st = (o, st', ds) → coherent st'.
Proof.
  revert g t st o st' ds. induction fuel as [|n IH]; intros g t st o st' ds Hwf Hco; cbn;
    destruct (callable_of st g) as [[body|e]|];
    try (destruct (run st (body t)) as [r ds']);
    try (by intros [= <- <- <-]).
  by apply descriptor_get_coherent.
Qed.

Lemma step_coherent o st : wf st → coherent st → coherent (step o st).
Proof.
  intros Hwf Hco. destruct (step_sound o st Hwf) as [_ Hext].
  destruct o as [ps|body|t k v|c v|dbg args|fuel fn this]; cbn -[cached] in *.
  - apply (coherent_frame st); try done. apply Hext.
  - apply (coherent_frame st); try done. apply Hext.
  - destruct (set_property st t k v) as [st'|] eqn:Hs; cbn in *; [|done].
    destruct (set_property_rest _ _ _ _ _ Hs) as (_ & ? & ? & ? & _).
    apply (coherent_frame st); try done. apply Hext.
  - by apply coherent_write_cell.
  - destruct (cached dbg args st) as [o st'] eqn:Hc. cbn in *.
    apply cached_cases in Hc as [[-> _]|(_ & d & od & _ & Hd & ->)]; [done|].
    apply (coherent_frame st); try done. apply Hext.
  - destruct (call fuel fn this st) as [[o st'] ds] eqn:Hc. cbn.
    by eapply call_coherent.
Qed.

Lemma reachable_coherent st : reachable st → coherent st.
Proof.
  induction 1 as [|o st Hst IH]; [apply coherent_init|].
  apply step_coherent; [by apply reachable_wf | done].
Qed.

(** A read of the memoized property has the outcome that calling the
    original getter on the receiver has now. *)
Lemma read_transparent fuel st c e body l :
  reachable st → memoizes st c e body →
  (call (S fuel) (VObject c) (VObject l) st).1.1
  = outcome_of (run st (body (VObject l))).1.
Proof.
  intros Hst Hm. pose proof (reachable_wf st Hst) as Hwf.
  destruct (read_as_initialized fuel st c e body l Hwf Hm)
    as (st0 & h & hd & -> & Hwf0 & Hm0 & Hc0 & Hh0 & Hrun & Hruns & Hsame).
  rewrite (read_initialized fuel st0 c e body l h hd) by done.
  destruct (cached_value st0 hd) as [v|] eqn:Hv.
  - specialize (Hsame (mk_is_Some _ _ eq_refl)). subst st0.
    destruct Hm as (_ & env & He & Hg).
    rewrite (cache_of_None _ _ _ _ He) in Hc0.
    destruct (wf_thunk _ Hwf _ _ _ _ He Hc0) as (hd' & Hh' & Hf). simplify_eq.
    destruct (reachable_coherent st Hst h hd Hh0) as [_ Hbody].
    rewrite Hf in Hbody. destruct (Hbody body Hg) as [_ Hval].
    specialize (Hval v Hv). cbn in Hval. cbn. by rewrite Hval.
  - rewrite <- Hrun. by destruct (run st0 (body (VObject l))) as [[w|x] ds].
Qed.

(** A call changes neither the objects nor the tracked state. *)
Lemma call_keeps_tracked_state fuel fn this st :
  reachable st → same st (call fuel fn this st).1.2.
Proof.
  intros Hwf%reachable_wf. destruct (call fuel fn this st) as [[o st'] ds] eqn:Hc.
  by destruct (call_sound fuel _ _ _ _ _ _ Hwf Hc) as (_ & _ & ?).
Qed.

(** ** The examples *)

Lemma reachable_world : reachable Person.world.
Proof. apply reachable_step, reachable_steps, reachable_init. Qed.


Lemma reachable_read_once : reachable Person.read_once.
Proof. apply reachable_step, reachable_world. Qed.


Lemma reachable_read_both : reachable Person.read_both.
Proof. apply reachable_step, reachable_read_once. Qed.

Lemma reachable_throwing : reachable Throwing.world.
Proof. apply reachable_step, reachable_steps, reachable_init. Qed.

(** The scenario of the documentation: the first read computes "Jen Weber"
    with one run of the getter, the second returns it with no further run,
    and after [lastName] is assigned the next read computes "Jen Smith"
    with one more run. *)
Example jen_weber :
  let r1 := read_property 0 (VObject 2) (VObject 3) Person.world in
  let r2 := read_property 0 (VObject 2) (VObject 3) r1.1.2 in
  let r3 := read_property 0 (VObject 2) (VObject 3)
              (write_cell (3, "lastName") (VString "Smith") r2.1.2) in
  (r1.1.1, runs 0 r1.1.2) = (Return (VString "Jen Weber"), 1)
  ∧ (r2.1.1, runs 0 r2.1.2) = (Return (VString "Jen Weber"), 1)
  ∧ (r3.1.1, runs 0 r3.1.2) = (Return (VString "Jen Smith"), 2).
Proof. by vm_compute. Qed.

(** A getter that throws is run by every read, and once its input is
    repaired the next read returns. *)
Example amount_throws :
  let r1 := read_property 0 (VObject 2) (VObject 3) Throwing.world in
  let r2 := read_property 0 (VObject 2) (VObject 3) r1.1.2 in
  let r3 := read_property 0 (VObject 2) (VObject 3)
              (write_cell (3, "input") (VNumber 12) r2.1.2) in
  (r1.1.1, runs 0 r1.1.2) = (Raise (Thrown (VString "no number")), 1)
  ∧ (r2.1.1, runs 0 r2.1.2) = (Raise (Thrown (VString "no number")), 2)
  ∧ (r3.1.1, runs 0 r3.1.2) = (Return (VNumber 12), 3).
Proof. by vm_compute. Qed.

(** The decorator applied twice to the same descriptor: the outer getter
    memoizes the inner one, each with a cache of its own, and a read needs
    fuel for the two levels. *)
Example decorated_twice :
  let st := step (OpDecorate true Person.args) Person.world in
  let r1 := read_property 1 (VObject 2) (VObject 3) st in
  let r2 := read_property 1 (VObject 2) (VObject 3)
              (write_cell (3, "lastName") (VString "Smith") r1.1.2) in
  get_property st (VObject 2) "get" = Some (VObject 6)
  ∧ (r1.1.1, runs 0 r1.1.2, runs 1 r1.1.2) = (Return (VString "Jen Weber"), 1, 1)
  ∧ (r2.1.1, runs 0 r2.1.2, runs 1 r2.1.2) = (Return (VString "Jen Smith"), 2, 2)
  ∧ (read_property 0 (VObject 2) (VObject 3) st).1.1 = OutOfFuel.
Proof. by vm_compute. Qed.

(** The three misuses that the comment on line 43 lists, with [DEBUG] on. *)
Example cached_with_parentheses :
  cached true [] Misuse.before = (Raise CachedExtraneousParens, Misuse.before).
Proof. by vm_compute. Qed.

Example cached_with_arguments :
  cached true [VString "fullName"] Misuse.before
  = (Raise (CachedInvalidArgsError [VString "fullName"]), Misuse.before).
Proof. by vm_compute. Qed.

Example cached_on_method :
  cached true Misuse.args Misuse.before
  = (Raise (CachedGetterOnlyError (VString "answer")), Misuse.before).
Proof. by vm_compute. Qed.

(** ** A read resolves the registered cache *)

Lemma read_registered fuel st c e l h :
  callable_of st (VObject c) = Some (CachedGetter e) →
  cache_of st e l = Some h →
  call (S fuel) (VObject c) (VObject l) st = getValue (call fuel) (Some h) st.
Proof.
  intros Hc (env & He & Hl)%cache_of_Some.
  rewrite (call_getter fuel st c e) by done.
  unfold descriptor_get. rewrite He. cbn -[getValue].
  rewrite bool_decide_eq_true_2 by eauto. cbn -[getValue].
  rewrite He. cbn -[getValue]. by rewrite Hl.
Qed.

Lemma callable_of_steps os st v k :
  wf st → callable_of st v = Some k → callable_of (steps os st) v = Some k.
Proof.
  revert st. induction os as [|o os IH]; intros st Hwf Hk; [done|].
  cbn. destruct (step_sound o st Hwf) as [Hwf' Hext].
  apply IH; [done|]. by apply (ext_code _ _ Hext).
Qed.

(** Explicit arguments that are objects, with [DEBUG] on: an ordinary
    object and a function convert to strings, an object without a
    prototype does not, and what a [toString] throws comes out of
    [cached]. *)
Example cached_with_objects :
  cached true [VObject 1] Bare.world
  = (Raise (CachedInvalidArgsError [VObject 1]), Bare.world)
  ∧ cached true [VObject 0] Bare.world
    = (Raise (CachedInvalidArgsError [VObject 0]), Bare.world)
  ∧ cached true [VObject 2] Bare.world = (Raise TypeError, Bare.world)
  ∧ cached true [VString "a"; VObject 3; VObject 2] Bare.world
    = (Raise (Thrown (VString "no string")), Bare.world).
Proof. split_and!; by vm_compute. Qed.

(** ** The claims *)

(** C1. For every declaration (environment [e]) and every object [l], in
    every reachable state: the getter has called [createCache] for [l] once
    if [l] has a cache and never otherwise; an instance without a cache gets
    one only by a call with the instance as receiver, never by the
    decorator; the read of an instance without a cache creates and registers
    one, and resolves it; and a registered cache stays registered, the same
    one, whatever happens next, with no further call of [createCache] for
    [l], and every later read of the instance is the engine's resolution of
    that cache. *)
Theorem C1_one_cache_per_instance st e l :
  reachable st →
  creations e (VObject l) st = match cache_of st e l with Some _ => 1 | None => 0 end
  ∧ (∀ o, cache_of st e l = None → is_Some (cache_of (step o st) e l) →
          ∃ fuel fn, o = OpCall fuel fn (VObject l))
  ∧ (∀ fuel c,
       callable_of st (VObject c) = Some (CachedGetter e) →
       (∃ env, envs st !! e = Some env ∧ is_Some (callable_of st (getter env))) →
       cache_of st e l = None →
       cache_of (step (OpCall (S fuel) (VObject c) (VObject l)) st) e l
       = Some (length (handles st))
       ∧ call (S fuel) (VObject c) (VObject l) st
         = getValue (call fuel) (Some (length (handles st))) (create_for e l st))
  ∧ (∀ h os,
       cache_of st e l = Some h →
       cache_of (steps os st) e l = Some h ∧ creations e (VObject l) (steps os st) = 1
       ∧ ∀ fuel c,
           callable_of st (VObject c) = Some (CachedGetter e) →
           call (S fuel) (VObject c) (VObject l) (steps os st)
           = getValue (call fuel) (Some h) (steps os st)).
Proof.
  intros Hwf%reachable_wf. split_and!.
  - apply (wf_creations _ Hwf).
  - intros o. by apply only_reads_initialize.
  - intros fuel c Hc (env & He & Hg) Hnone.
    pose proof Hnone as Hnone'. rewrite (cache_of_None _ _ _ _ He) in Hnone'.
    split.
    + by destruct (first_read_registers fuel st c e env l Hwf Hc He Hg Hnone') as [? _].
    + rewrite (read_uninitialized fuel st c e l) by eauto.
      destruct (create_for_cache st e env l He) as (Hc0 & _).
      apply (read_registered fuel _ c e l); [|done].
      destruct (create_for_sound st e env l Hwf He Hnone') as (_ & Hext & _).
      by apply (ext_code _ _ Hext).
  - intros h os Hc. pose proof (cache_of_steps os st e l h Hwf Hc) as Hc'.
    split_and!; [done| |].
    + rewrite (wf_creations _ (wf_steps os st Hwf)). by rewrite Hc'.
    + intros fuel c Hcode. apply (read_registered fuel _ c e l); [|done].
      by apply callable_of_steps.
Qed.

Lemma C1_witness : creations 0 (VObject 3) Person.read_once = 1.
Proof.
  destruct (C1_one_cache_per_instance Person.read_once 0 3 reachable_read_once) as [H _].
  assert (cache_of Person.read_once 0 3 = Some 0) as Hc by (by vm_compute).
  rewrite Hc in H. exact H.
Defined.










(** C6, amended.  Once the getter is installed over an original getter that
    is a user function, a read by an object never fails on its own account:
    its outcome is the outcome the original getter has on the instance, so
    it returns a value when the getter does, and when the getter throws it
    raises exactly the thrown value.  A failure comes with one run of the
    getter and is not cached: the same read again runs the getter again and
    raises the same value. *)
Theorem C6_read_returns_or_propagates fuel st c e body l :
  reachable st →
  memoizes st c e body →
  let r := call (S fuel) (VObject c) (VObject l) st in
  r.1.1 = outcome_of (run st (body (VObject l))).1
  ∧ ∀ x, (run st (body (VObject l))).1 = inr x →
         ∃ h, cache_of r.1.2 e l = Some h ∧ runs h r.1.2 = S (runs h st)
              ∧ let r' := call (S fuel) (VObject c) (VObject l) r.1.2 in
                r'.1.1 = Raise (Thrown x) ∧ runs h r'.1.2 = S (runs h r.1.2).
Proof.
  intros Hst Hm r. split; [by apply (read_transparent fuel st c e)|].
  pose proof (read_transparent fuel st c e body l Hst Hm) as Hout.
  pose proof (reachable_wf st Hst) as Hwf. subst r. revert Hout.
  destruct (read_as_initialized fuel st c e body l Hwf Hm)
    as (st0 & h & hd & -> & Hwf0 & Hm0 & Hc0 & Hh0 & Hrun & Hruns & Hsame).
  intros Hout x Hx. rewrite Hx in Hout. rewrite <- Hrun in Hx.
  assert (cached_value st0 hd = None) as Hv.
  { destruct (cached_value st0 hd) as [v|] eqn:Hv; [|done].
    rewrite (read_initialized fuel st0 c e body l h hd) in Hout by done.
    by rewrite Hv in Hout. }
  destruct (failing_read_twice fuel st0 c e body l h hd x) as (H1 & H2 & H3 & H4 & H5);
    try done.
  exists h. rewrite <- Hruns. by split_and!.
Qed.

Lemma C6_witness :
  (call 1 (VObject 4) (VObject 3) Throwing.world).1.1
  = Raise (Thrown (VString "no number")).
Proof.
  assert (memoizes Throwing.world 4 0 Throwing.amount) as Hm.
  { split; [by vm_compute | eexists; split; by vm_compute]. }
  destruct (C6_read_returns_or_propagates 0 Throwing.world 4 0 Throwing.amount 3
              reachable_throwing Hm) as [H _].
  assert (run Throwing.world (Throwing.amount (VObject 3))
          = (inr (VString "no number"), [(3, "input", 1)])) as Hr
    by (by vm_compute).
  rewrite Hr in H. exact H.
Defined.

(** C6 as stated fails where the decorator ran without validation on a
    member that is no getter: the getter is installed, and the first read
    raises a TypeError. *)
Lemma C6_counterexample :
  get_property Misuse.production (VObject 2) "get" = Some (VObject 4)
  ∧ callable_of Misuse.production (VObject 4) = Some (CachedGetter 0)
  ∧ call 1 (VObject 4) (VObject 3) Misuse.production
    = (Raise TypeError, Misuse.production, []).
Proof. split_and!; by vm_compute. Qed.




(** C9. [cached] captures the descriptor's [get] as it is before the
    assignment, and the function it assigns is a new object, different from
    a captured function.  In every reachable state, for every declaration:
    each cache registered for an object is the captured getter bound to that
    object; two objects have two caches; the first read by an object
    registers such a cache under that object; and a read by an object, when
    the captured getter is a user function, has the outcome that the
    function has on the receiver of the read: the read of an object without
    a cache is the read after line 63 registered one, and the read of an
    object with a cache returns the value the cache holds while that is
    valid, and otherwise runs the function on the receiver, stores what it
    returns and returns it, or raises what it throws. *)
Theorem C9_getter_runs_original_on_receiver st :
  reachable st →
  (∀ DEBUG args st',
     cached DEBUG args st = (Return VUndefined, st') →
     ∃ d g,
       nth 2 args VUndefined = VObject d
       ∧ get_property st (VObject d) "get" = Some g
       ∧ get_property st' (VObject d) "get" = Some (VObject (length (heap st)))
       ∧ callable_of st' (VObject (length (heap st)))
         = Some (CachedGetter (length (envs st)))
       ∧ envs st' !! length (envs st) = Some {| caches := ∅; getter := g |}
       ∧ (is_Some (callable_of st g) → g ≠ VObject (length (heap st))))
  ∧ (∀ e env,
       envs st !! e = Some env →
       (∀ l h, caches env !! l = Some h →
               ∃ hd, handles st !! h = Some hd
                     ∧ h_fn hd = {| bound_target := getter env; bound_this := VObject l |})
       ∧ (∀ l1 l2 h1 h2,
            l1 ≠ l2 → caches env !! l1 = Some h1 → caches env !! l2 = Some h2 → h1 ≠ h2)
       ∧ (∀ fuel c l,
            callable_of st (VObject c) = Some (CachedGetter e) →
            is_Some (callable_of st (getter env)) →
            caches env !! l = None →
            let st' := (call (S fuel) (VObject c) (VObject l) st).1.2 in
            cache_of st' e l = Some (length (handles st))
            ∧ ∃ hd, handles st' !! length (handles st) = Some hd
                    ∧ h_fn hd = {| bound_target := getter env; bound_this := VObject l |})
       ∧ (∀ fuel c l body,
            callable_of st (VObject c) = Some (CachedGetter e) →
            callable_of st (getter env) = Some (UserFn body) →
            let r := call (S fuel) (VObject c) (VObject l) st in
            r.1.1 = outcome_of (run st (body (VObject l))).1
            ∧ (caches env !! l = None →
               r = call (S fuel) (VObject c) (VObject l) (create_for e l st))
            ∧ (∀ h hd,
                 caches env !! l = Some h → handles st !! h = Some hd →
                 r = match cached_value st hd with
                     | Some v => (Return v, st, h_deps hd)
                     | None =>
                         match run st (body (VObject l)) with
                         | (inl v, ds) => (Return v, recomputed h hd v ds st, ds)
                         | (inr x, _) => (Raise (Thrown x), log (EvRun h) st, [])
                         end
                     end))).
Proof.
  intros Hst. pose proof (reachable_wf st Hst) as Hwf. split.
  - intros DEBUG args st' [[_ [err ?]]|(_ & d & od & Hd & Ho & ->)]%cached_cases; [done|].
    destruct (installed_state_spec st d od Ho) as (H1 & H2 & H3 & _).
    exists d, (default VUndefined (props od !! "get")). split_and!; try done.
    + cbn. by rewrite Ho.
    + cbn [get_property]. rewrite H1. cbn. by rewrite lookup_insert_eq.
    + cbn [callable_of]. by rewrite H2.
    + intros [k Hk] Heq. rewrite Heq in Hk. cbn in Hk.
      by rewrite lookup_ge_None_2 in Hk.
  - intros e env He. split_and!.
    + intros l h Hc. by apply (wf_thunk _ Hwf e).
    + intros l1 l2 h1 h2 Hne H1 H2 ->.
      destruct (wf_inj _ Hwf e e l1 l2 h2) as [_ ?]; [by apply cache_of_Some; eauto..|done].
    + intros fuel c l Hc Hg Hnone. by apply first_read_registers.
    + intros fuel c l body Hc Hg r.
      assert (memoizes st c e body) as Hm by (split; [done|]; eauto).
      split_and!.
      * by apply (read_transparent fuel st c e).
      * intros Hnone. apply read_uninitialized; [done|by exists env; rewrite Hg|].
        by rewrite (cache_of_None _ _ _ _ He).
      * intros h hd Hh Hhd. apply (read_initialized fuel st c e body l h hd); try done.
        by rewrite (cache_of_None _ _ _ _ He).
Qed.

Lemma C9_witness :
  (∃ hd, handles Person.read_both !! 0 = Some hd
         ∧ h_fn hd = {| bound_target := VObject 1; bound_this := VObject 3 |})
  ∧ (∃ hd, handles Person.read_both !! 1 = Some hd
           ∧ h_fn hd = {| bound_target := VObject 1; bound_this := VObject 4 |}).
Proof.
  destruct (C9_getter_runs_original_on_receiver Person.read_both reachable_read_both)
    as [_ H].
  assert (envs Person.read_both !! 0
          = Some {| caches := {[ 3 := 0; 4 := 1 ]}; getter := VObject 1 |}) as He
    by (by vm_compute).
  destruct (H 0 _ He) as (Hthunk & _).
  split; [apply (Hthunk 3 0) | apply (Hthunk 4 1)]; by vm_compute.
Defined.

(** C10. Whenever [cached] returns, it returns [undefined], its third
    argument is an object, and that object is changed in place: its [get]
    is a reference to a newly allocated function object, the function of
    lines 61-67 over a new environment that holds an empty WeakMap and the
    descriptor's former [get], so that calling it runs those lines; the
    other properties of the descriptor and its code are as before; every
    other object that existed, the target among them, is unchanged, and so
    are the other environments, the tracked state, the caches and the
    log. *)
Theorem C10_decorator_changes_only_get DEBUG args st r st' :
  cached DEBUG args st = (Return r, st') →
  r = VUndefined
  ∧ ∃ d od,
      nth 2 args VUndefined = VObject d
      ∧ heap st !! d = Some od
      ∧ heap st' !! d
        = Some {| props := <["get" := VObject (length (heap st))]> (props od);
                  code := code od |}
      ∧ heap st' !! length (heap st)
        = Some {| props := ∅; code := Some (CachedGetter (length (envs st))) |}
      ∧ length (heap st') = S (length (heap st))
      ∧ envs st'
        = (envs st ++ [{| caches := ∅; getter := default VUndefined (props od !! "get") |}])%list
      ∧ (∀ fuel this,
           call (S fuel) (VObject (length (heap st))) this st'
           = descriptor_get (call fuel) (length (envs st)) this st')
      ∧ (∀ k, k ≠ "get" →
              get_property st' (VObject d) k = get_property st (VObject d) k)
      ∧ (∀ l o, heap st !! l = Some o → l ≠ d → heap st' !! l = Some o)
      ∧ handles st' = handles st ∧ cells st' = cells st ∧ revs st' = revs st
      ∧ trace st' = trace st.
Proof.
  intros [[_ [err ?]]|(Hr & d & od & Hd & Ho & ->)]%cached_cases; [done|].
  split; [congruence|]. exists d, od.
  destruct (installed_state_spec st d od Ho) as (H1 & H2 & _ & H4).
  split_and!; try done.
  - cbn. by rewrite length_insert, length_app, Nat.add_1_r.
  - intros fuel this. apply call_getter. unfold callable_of. by rewrite H2.
  - intros k Hk. cbn [get_property]. rewrite H1, Ho. cbn. by rewrite lookup_insert_ne.
Qed.

Lemma C10_witness :
  heap Person.world !! 2
  = Some {| props := <["get" := VObject 5]>
                       {[ "get" := VObject 1; "set" := VUndefined;
                          "enumerable" := VBool false; "configurable" := VBool true ]};
            code := None |}
  ∧ get_property Person.world (VObject 2) "set" = get_property Person.before (VObject 2) "set".
Proof.
  assert (cached true Person.args Person.before = (Return VUndefined, Person.world)) as Hc
    by (by vm_compute).
  destruct (C10_decorator_changes_only_get true Person.args Person.before _ _ Hc)
    as (_ & d & od & Hd & Ho & H1 & _ & _ & _ & _ & H2 & _).
  assert (d = 2) as -> by (vm_compute in Hd; congruence).
  assert (heap Person.before !! 2
          = Some {| props := {[ "get" := VObject 1; "set" := VUndefined;
                                "enumerable" := VBool false; "configurable" := VBool true ]};
                    code := None |}) as Ho' by (by vm_compute).
  rewrite Ho' in Ho. injection Ho as <-.
  split; [exact H1 | by apply H2].
Defined.

(** ** Further properties: the messages of the validation errors *)

Lemma append_length s t : String.length (s +:+ t) = (String.length s + String.length t)%nat.
Proof.
  induction s as [|a s IH]; [done|].
  change (String a s +:+ t) with (String a (s +:+ t)). cbn. by rewrite IH.
Qed.

Lemma append_inj_r s1 s2 t : s1 +:+ t = s2 +:+ t → s1 = s2.
Proof.
  revert s2. induction s1 as [|a s1 IH]; intros [|b s2] H.
  - done.
  - apply (f_equal String.length) in H. rewrite !append_length in H. cbn in H. lia.
  - apply (f_equal String.length) in H. rewrite !append_length in H. cbn in H. lia.
  - change (String a (s1 +:+ t) = String b (s2 +:+ t)) in H.
    injection H as -> H. by rewrite (IH _ H).
Qed.

(** X1. The three validation errors can be told apart by their messages:
    whatever the arguments and the key are, the message of
    [throwCachedExtraneousParens], a message of
    [throwCachedInvalidArgsError] and a message of
    [throwCachedGetterOnlyError] are three different strings. *)
Theorem validation_messages_differ args key ma mg :
  message (CachedInvalidArgsError args) = Some ma →
  message (CachedGetterOnlyError key) = Some mg →
  extraneous_parens_message ≠ ma ∧ extraneous_parens_message ≠ mg ∧ ma ≠ mg.
Proof.
  cbn. unfold invalid_args_message, getter_only_message, extraneous_parens_message.
  intros Ha Hg.
  destruct (mapM _ args) as [quoted|]; [|done].
  destruct (ToString key) as [k|]; [|done].
  cbn in Ha, Hg. injection Ha as <-. injection Hg as <-.
  cbv [String.append]. split_and!; discriminate.
Qed.

Lemma validation_messages_differ_witness :
  extraneous_parens_message
  ≠ "You attempted to use @cached on with an argument ( @cached('foo'), which is not supported. Dependencies are automatically tracked, so you can just use `@cached`"
  ∧ extraneous_parens_message
    ≠ "The @cached decorator must be applied to getters. 'answer' is not a getter."
  ∧ "You attempted to use @cached on with an argument ( @cached('foo'), which is not supported. Dependencies are automatically tracked, so you can just use `@cached`"
    ≠ "The @cached decorator must be applied to getters. 'answer' is not a getter.".
Proof.
  apply (validation_messages_differ [VString "foo"] (VString "answer")); reflexivity.
Defined.

(** X2. The message of [throwCachedGetterOnlyError] identifies the
    property: two property names with the same message are the same
    name. *)
Theorem getter_only_message_names_key (k1 k2 : string) :
  message (CachedGetterOnlyError (VString k1)) = message (CachedGetterOnlyError (VString k2)) →
  k1 = k2.
Proof.
  cbn. intros H. injection H as H. apply (inj (String.append _)) in H.
  by apply append_inj_r in H.
Qed.

Lemma getter_only_message_names_key_witness : "answer" = "answer".
Proof. apply (getter_only_message_names_key "answer" "answer"). reflexivity. Defined.

(** ** Further properties: what the validation reports *)







(** X4. [null] passes the checks of lines 44-53, because [typeof null] is
    ['object']: with [DEBUG] on, a [null] descriptor makes the [in] of line
    54 raise a TypeError instead of a validation error, and a [null] target
    is accepted, the getter being installed. *)
Theorem null_passes_validation st target key :
  typeof st target = TObject → typeof st key = TString →
  cached true [target; key; VNull] st = (Raise TypeError, st)
  ∧ ∀ d od,
      heap st !! d = Some od → code od = None →
      is_Some (callable_of st (default VUndefined (props od !! "get"))) →
      cached true [VNull; key; VObject d] st
      = (Return VUndefined, installed_state st d od).
Proof.
  intros Ht Hk. split.
  - unfold cached. cbn [nth andb length].
    rewrite bool_decide_eq_false_2 by (intros ->; done).
    rewrite !bool_decide_eq_false_2 by (intros Hn; by apply Hn). done.
  - intros d od Ho Hcode Hg. unfold cached. cbn [nth andb length].
    rewrite bool_decide_eq_false_2 by done.
    assert (typeof st (VObject d) = TObject) as Hd.
    { cbn. rewrite Ho. cbn. by rewrite Hcode. }
    rewrite !bool_decide_eq_false_2 by (intros Hn; by apply Hn). cbn [orb].
    unfold not_a_getter. cbn. rewrite Ho. cbn.
    destruct (props od !! "get") as [g|] eqn:Hget; cbn in *.
    + rewrite bool_decide_eq_true_2 by (by apply typeof_function). cbn.
      by apply install_object.
    + by destruct Hg.
Qed.

Lemma null_passes_validation_witness :
  cached true [VNull; VString "answer"; VNull] Misuse.before = (Raise TypeError, Misuse.before).
Proof.
  apply (null_passes_validation Misuse.before VNull (VString "answer")); reflexivity.
Defined.


(** ** Further properties: reads *)

Lemma reachable_before : reachable Person.before.
Proof. apply reachable_steps. constructor. Qed.

Lemma reachable_twice : reachable Twice.world.
Proof. constructor. apply reachable_world. Qed.

(** X6. A call of the installed getter with a receiver that is not an
    object ([undefined], [null], a primitive) raises a TypeError and never
    runs a getter: when the captured getter is a function, line 63 has
    already created a cache, bound to that receiver, when [caches.set]
    refuses the key, and the cache is registered nowhere; otherwise [bind]
    fails and no cache is created.  The WeakMaps and the objects are as
    before. *)
Theorem read_without_instance fuel st c e this :
  reachable st →
  callable_of st (VObject c) = Some (CachedGetter e) →
  (∀ l, this ≠ VObject l) →
  let r := call (S fuel) (VObject c) this st in
  r.1.1 = Raise TypeError
  ∧ envs r.1.2 = envs st
  ∧ heap r.1.2 = heap st
  ∧ (∀ h, runs h r.1.2 = runs h st)
  ∧ ∃ env, envs st !! e = Some env
           ∧ handles r.1.2
             = if bool_decide (is_Some (callable_of st (getter env)))
               then (handles st ++ [{| h_fn := {| bound_target := getter env; bound_this := this |};
                                       h_value := None; h_deps := [] |}])%list
               else handles st.
Proof.
  intros Hwf%reachable_wf Hc Hthis r. subst r.
  destruct (lookup_lt_is_Some_2 (envs st) e (wf_closure _ Hwf _ _ Hc)) as [env He].
  rewrite (call_getter fuel st c e) by done.
  unfold descriptor_get. rewrite He.
  assert (wm_has (caches env) this = false) as -> by (destruct this; [done..|by destruct (Hthis l)]).
  assert (∀ h, wm_set (caches env) this h = None) as Hset
      by (intros h; destruct this; [done..|by destruct (Hthis l)]).
  cbn [negb]. unfold bind.
  destruct (callable_of st (getter env)) as [k|] eqn:Hg.
  - cbn -[runs]. rewrite Hset. cbn -[runs]. split_and!; try done.
    exists env. split; [done|]. by rewrite bool_decide_eq_true_2 by (by rewrite Hg).
  - cbn -[runs]. split_and!; try done.
    exists env. split; [done|].
    by rewrite bool_decide_eq_false_2 by (rewrite Hg; by intros ?%is_Some_None).
Qed.

(** The state a read leaves, by cases: the read first registers a cache
    for the instance if there is none, and then leaves the state as it is,
    or has the engine run the thunk and store its value, or has the engine
    run the thunk to a failure. *)
(** The state a read leaves, by cases: the read first registers a cache
    for the instance if there is none, and then leaves the state as it is,
    or has the engine run the thunk and store its value, or has the engine
    run the thunk to a failure. *)
Lemma read_without_instance_witness :
  (call 1 (VObject 5) VUndefined Person.world).1.1 = Raise TypeError.
Proof.
  assert (callable_of Person.world (VObject 5) = Some (CachedGetter 0)) as Hc
    by (by vm_compute).
  assert (∀ l, VUndefined ≠ VObject l) as Hthis by (intros l; discriminate).
  destruct (read_without_instance 0 Person.world 5 0 VUndefined reachable_world Hc Hthis)
    as [H _].
  exact H.
Defined.

Lemma read_effect fuel st c e body l :
  wf st → memoizes st c e body →
  ∃ st0 h hd,
    (st0 = st ∨ (cache_of st e l = None ∧ st0 = create_for e l st))
    ∧ wf st0 ∧ cache_of st0 e l = Some h ∧ handles st0 !! h = Some hd
    ∧ let st' := (call (S fuel) (VObject c) (VObject l) st).1.2 in
      st' = st0 ∨ (∃ v ds, st' = recomputed h hd v ds st0) ∨ st' = log (EvRun h) st0.
Proof.
  intros Hwf Hm.
  assert (∀ st0 h hd, wf st0 → memoizes st0 c e body → cache_of st0 e l = Some h →
            handles st0 !! h = Some hd →
            let st' := (call (S fuel) (VObject c) (VObject l) st0).1.2 in
            st' = st0 ∨ (∃ v ds, st' = recomputed h hd v ds st0) ∨ st' = log (EvRun h) st0)
    as Hinit.
  { intros st0 h hd Hwf0 Hm0 Hc0 Hh0. cbn zeta.
    rewrite (read_initialized fuel st0 c e body l h hd) by done.
    destruct (cached_value st0 hd) as [v|]; [by left|].
    destruct (run st0 (body (VObject l))) as [[v|x] ds]; cbn -[recomputed]; eauto. }
  destruct (cache_of st e l) as [h|] eqn:Hc.
  - destruct Hm as (Hcode & env & He & Hg).
    pose proof Hc as Hc'. rewrite (cache_of_None _ _ _ _ He) in Hc'.
    destruct (wf_thunk _ Hwf _ _ _ _ He Hc') as (hd & Hh & _).
    exists st, h, hd. split_and!; try done; [by left|].
    apply Hinit; try done. split; eauto.
  - pose proof Hm as (Hcode & env & He & Hg).
    pose proof Hc as Hc'. rewrite (cache_of_None _ _ _ _ He) in Hc'.
    destruct (create_for_sound st e env l Hwf He Hc') as (Hwf0 & Hext0 & _).
    destruct (create_for_cache st e env l He) as (Hc0 & Hh0 & _).
    eexists (create_for e l st), (length (handles st)), _.
    split_and!; try done; [by right|].
    cbn zeta. rewrite (read_uninitialized fuel st c e l) by (try done; exists env; by rewrite Hg).
    apply Hinit; try done. by eapply memoizes_extends.
Qed.

Lemma cache_of_create_for_ne st e l e1 l1 :
  e1 ≠ e → cache_of (create_for e l st) e1 l1 = cache_of st e1 l1.
Proof.
  intros Hne. unfold create_for. destruct (envs st !! e) as [env|]; [|done].
  unfold cache_of. cbn. by rewrite list_lookup_insert_ne.
Qed.

(** X7. Declarations do not share caches: for a declaration whose
    captured getter is a user function, which reads tracked state only and
    so no other memoized property, a read through its getter leaves the
    WeakMap of every other declaration as it was, changes and runs none of
    the caches registered there, and the cache it uses is registered under
    no other declaration. *)
Theorem declarations_are_isolated fuel st c e body e1 l :
  reachable st → memoizes st c e body → e1 ≠ e →
  let st' := (call (S fuel) (VObject c) (VObject l) st).1.2 in
  (∀ l1, cache_of st' e1 l1 = cache_of st e1 l1)
  ∧ (∀ l1 h1, cache_of st e1 l1 = Some h1 →
              handles st' !! h1 = handles st !! h1 ∧ runs h1 st' = runs h1 st)
  ∧ ∃ h, cache_of st' e l = Some h ∧ ∀ l1, cache_of st' e1 l1 ≠ Some h.
Proof.
  intros Hwf%reachable_wf Hm Hne st'.
  destruct (read_effect fuel st c e body l Hwf Hm)
    as (st0 & h & hd & Hst0 & Hwf0 & Hc0 & Hh0 & Hst').
  fold st' in Hst'.
  assert (envs st' = envs st0) as Henvs.
  { destruct Hst' as [->|[(v & ds & ->)| ->]]; done. }
  assert (∀ e2 l2, cache_of st' e2 l2 = cache_of st0 e2 l2) as Hsame.
  { intros e2 l2. unfold cache_of. by rewrite Henvs. }
  assert (∀ l1, cache_of st0 e1 l1 = cache_of st e1 l1) as Hother.
  { intros l1. destruct Hst0 as [->|[_ ->]]; [done|]. by apply cache_of_create_for_ne. }
  assert (∀ l1, cache_of st0 e1 l1 ≠ Some h) as Hnot.
  { intros l1 H1. by destruct (wf_inj _ Hwf0 _ _ _ _ _ H1 Hc0). }
  split_and!.
  - intros l1. by rewrite Hsame.
  - intros l1 h1 H1.
    assert (h1 ≠ h) as Hh1 by (intros ->; apply (Hnot l1); by rewrite Hother).
    assert (h1 < length (handles st))%nat as Hlt.
    { apply cache_of_Some in H1 as (env1 & He1 & Hl1).
      destruct (wf_thunk _ Hwf _ _ _ _ He1 Hl1) as (hd1 & Hhd1 & _).
      by eapply lookup_lt_Some. }
    assert (handles st0 !! h1 = handles st !! h1 ∧ runs h1 st0 = runs h1 st) as [Hh Hr].
    { destruct Hst0 as [->|[_ ->]]; [done|].
      destruct Hm as (_ & env & He & _).
      destruct (create_for_cache st e env l He) as (_ & _ & Hruns).
      split; [|done]. unfold create_for. rewrite He. cbn. by rewrite lookup_app_l. }
    rewrite <- Hh, <- Hr.
    destruct Hst' as [->|[(v & ds & ->)| ->]]; [done| |].
    + unfold recomputed. split.
      * cbn. by rewrite list_lookup_insert_ne.
      * unfold runs. cbn. by rewrite bool_decide_eq_false_2.
    + split; [done|]. unfold runs. cbn. by rewrite bool_decide_eq_false_2.
  - exists h. split; [by rewrite Hsame|]. intros l1. by rewrite Hsame.
Qed.

Lemma declarations_are_isolated_witness :
  cache_of (call 1 (VObject 5) (VObject 3) Twice.world).1.2 1 3 = cache_of Twice.world 1 3.
Proof.
  assert (memoizes Twice.world 5 0 Person.fullName) as Hm.
  { split; [by vm_compute | eexists; split; by vm_compute]. }
  assert (1 ≠ 0) as Hne by lia.
  destruct (declarations_are_isolated 0 Twice.world 5 0 Person.fullName 1 3
              reachable_twice Hm Hne) as [H _].
  apply (H 3).
Defined.

(** X8. Decorating and then reading: after [cached] returned for a
    descriptor whose [get] was a user function, the first read of the
    property by an object, through the descriptor, has the outcome that the
    function has on the object; it creates the cache of the object, the
    first cache of the new declaration, and runs it once; and when it
    returned a value, the same read again returns that value, with the same
    dependencies, and changes nothing. *)
Theorem decorate_then_read DEBUG args st st' g body fuel l :
  reachable st →
  cached DEBUG args st = (Return VUndefined, st') →
  get_property st (nth 2 args VUndefined) "get" = Some g →
  callable_of st g = Some (UserFn body) →
  let descriptor := nth 2 args VUndefined in
  let r := read_property fuel descriptor (VObject l) st' in
  r.1.1 = outcome_of (run st (body (VObject l))).1
  ∧ cache_of r.1.2 (length (envs st)) l = Some (length (handles st))
  ∧ runs (length (handles st)) r.1.2 = 1
  ∧ creations (length (envs st)) (VObject l) r.1.2 = 1
  ∧ ∀ v, r.1.1 = Return v →
         read_property fuel descriptor (VObject l) r.1.2 = (Return v, r.1.2, r.2).
Proof.
  intros Hwf%reachable_wf Hc Hg Hbody descriptor r.
  apply cached_cases in Hc as [[_ [err ?]]|(_ & d & od & Hd & Ho & ->)]; [done|].
  subst descriptor r. rewrite Hd in *. cbn in Hg. rewrite Ho in Hg. cbn in Hg.
  injection Hg as Hg.
  set (st' := installed_state st d od).
  set (c := length (heap st)). set (e := length (envs st)). set (h := length (handles st)).
  destruct (installed_state_spec st d od Ho) as (H1 & H2 & H3 & H4). fold st' c e in H1, H2, H3.
  assert (wf st') as Hwf' by (by apply wf_installed).
  assert (memoizes st' c e body) as Hm.
  { split; [unfold callable_of; by rewrite H2|].
    eexists. split; [done|]. cbn. rewrite Hg.
    by apply (ext_code _ _ (extends_installed st d od Ho)). }
  assert (cache_of st' e l = None) as Hnone.
  { unfold st'. rewrite cache_of_installed. unfold cache_of, e.
    by rewrite lookup_ge_None_2. }
  assert (run st' (body (VObject l)) = run st (body (VObject l))) as Hrun by (by apply run_ext).
  assert (∀ st2, heap st2 = heap st' →
            read_property fuel (VObject d) (VObject l) st2
            = call (S fuel) (VObject c) (VObject l) st2) as Hread.
  { intros st2 Hheap. unfold read_property, get_property. rewrite Hheap, H1.
    cbn -[call]. by rewrite lookup_insert_eq. }
  rewrite Hread by done.
  pose proof (call_wf (S fuel) (VObject c) (VObject l) st' Hwf') as Hwf1.
  destruct (run st (body (VObject l))) as [[v|x] ds] eqn:Hr.
  - destruct (first_read fuel st' c e body l v ds Hwf' Hm Hnone Hrun) as (Ho1 & Hds & Hf & Hruns).
    change (length (handles st')) with h in Hf, Hruns.
    split_and!; [done|apply Hf|done| |].
    + rewrite (wf_creations _ Hwf1). by destruct Hf as [-> _].
    + intros v' Hv'. rewrite Ho1 in Hv'. injection Hv' as <-.
      destruct (call (S fuel) (VObject c) (VObject l) st') as [[o1 st1] ds1] eqn:Hcall.
      destruct (call_sound (S fuel) _ _ _ _ _ _ Hwf' Hcall) as (_ & Hext & Hheap & _).
      cbn in *. rewrite Hread by done. subst ds1.
      apply (fresh_read fuel st1 c e body l h v ds); try done.
      by eapply memoizes_extends.
  - pose proof Hm as (Hcode & env & He & Hgetter).
    pose proof Hnone as Hnone'. rewrite (cache_of_None _ _ _ _ He) in Hnone'.
    rewrite (read_uninitialized fuel st' c e l) by (try done; exists env; by rewrite Hgetter).
    destruct (create_for_sound st' e env l Hwf' He Hnone') as (Hwf0 & Hext0 & _ & Hcells & Hrevs).
    destruct (create_for_cache st' e env l He) as (Hc0 & Hh0 & Hruns0).
    change (length (handles st')) with h in Hc0, Hh0.
    rewrite (failing_read fuel (create_for e l st') c e body l h _ x Hwf0
               (memoizes_extends _ _ _ _ _ Hm Hext0) Hc0 Hh0 eq_refl).
    + cbn -[runs creations]. split_and!; [done|done| | |done].
      * rewrite runs_log_run, bool_decide_eq_true_2 by done.
        rewrite Hruns0, (wf_runs _ Hwf') by done. done.
      * assert (creations e (VObject l) (create_for e l st') = 1) as Hcr.
        { rewrite (wf_creations _ Hwf0). by rewrite Hc0. }
        exact Hcr.
    + rewrite (run_ext st') by done. by rewrite Hrun.
Qed.

Lemma decorate_then_read_witness :
  (read_property 0 (VObject 2) (VObject 3) Person.world).1.1 = Return (VString "Jen Weber").
Proof.
  assert (cached true Person.args Person.before = (Return VUndefined, Person.world)) as Hc
    by (by vm_compute).
  assert (get_property Person.before (nth 2 Person.args VUndefined) "get" = Some (VObject 1))
    as Hg by (by vm_compute).
  assert (callable_of Person.before (VObject 1) = Some (UserFn Person.fullName)) as Hb
    by (by vm_compute).
  destruct (decorate_then_read true Person.args Person.before Person.world (VObject 1)
              Person.fullName 0 3 reachable_before Hc Hg Hb) as [H _].
  assert ((run Person.before (Person.fullName (VObject 3))).1 = inl (VString "Jen Weber"))
    as Hr by (by vm_compute).
  rewrite Hr in H. exact H.
Defined.

(** ** Further properties: getters over getters *)

Lemma original_user n st fn body :
  callable_of st fn = Some (UserFn body) → original n st fn = Some body.
Proof. intros H. destruct n; cbn; by rewrite H. Qed.

Lemma original_getter n st fn e :
  callable_of st fn = Some (CachedGetter e) →
  original (S n) st fn = envs st !! e ≫= λ env, original n st (getter env).
Proof. intros H. cbn. by rewrite H. Qed.

Lemma original_inv n st fn body :
  original n st fn = Some body →
  callable_of st fn = Some (UserFn body)
  ∨ ∃ e env n', callable_of st fn = Some (CachedGetter e) ∧ n = S n'
                ∧ envs st !! e = Some env ∧ original n' st (getter env) = Some body.
Proof.
  destruct n as [|n']; cbn; destruct (callable_of st fn) as [[b|e]|] eqn:Hc; try done.
  - intros [= ->]. by left.
  - intros [= ->]. by left.
  - destruct (envs st !! e) as [env|] eqn:He; [|done]. cbn. intros H.
    right. by exists e, env, n'.
Qed.

Lemma original_callable n st fn body :
  original n st fn = Some body → is_Some (callable_of st fn).
Proof. intros [H|(e & env & n' & H & _)]%original_inv; by rewrite H. Qed.

Lemma original_unique n m st fn b b' :
  original n st fn = Some b → original m st fn = Some b' → b = b'.
Proof.
  revert m fn. induction n as [|n IH]; intros m fn H H'.
  - apply original_inv in H as [H|(e & env & n' & _ & ? & _)]; [|done].
    rewrite (original_user m st fn b H) in H'. congruence.
  - apply original_inv in H as [H|(e & env & n' & Hc & [= <-] & He & Ho)].
    + rewrite (original_user m st fn b H) in H'. congruence.
    + apply original_inv in H' as [H'|(e' & env' & m' & Hc' & -> & He' & Ho')];
        [congruence|].
      simplify_eq. by eapply IH.
Qed.

Lemma original_forward st st' n fn body :
  (∀ v k, callable_of st v = Some k → callable_of st' v = Some k) →
  (∀ e env, envs st !! e = Some env →
            ∃ env', envs st' !! e = Some env' ∧ getter env' = getter env) →
  original n st fn = Some body → original n st' fn = Some body.
Proof.
  intros Hcode Henv. revert fn. induction n as [|n IH]; intros fn H.
  - apply original_inv in H as [H|(e & env & n' & _ & ? & _)]; [|done].
    apply original_user. by apply Hcode.
  - apply original_inv in H as [H|(e & env & n' & Hc & [= <-] & He & Ho)].
    + apply original_user. by apply Hcode.
    + rewrite (original_getter n st' fn e) by (by apply Hcode).
      destruct (Henv e env He) as (env' & -> & Hg). cbn. rewrite Hg. by apply IH.
Qed.

Lemma original_extends st st' n fn body :
  extends st st' → original n st fn = Some body → original n st' fn = Some body.
Proof.
  intros Hext. apply original_forward.
  - apply Hext.
  - intros e env He. destruct (ext_envs _ _ Hext e env He) as (env' & ? & ? & _). eauto.
Qed.

Lemma original_same st st' n fn :
  heap st' = heap st → envs st' = envs st → original n st' fn = original n st fn.
Proof.
  intros Hh He. revert fn. induction n as [|n IH]; intros fn; cbn;
    (assert (callable_of st' fn = callable_of st fn) as ->
       by (destruct fn; try done; cbn; by rewrite Hh));
    destruct (callable_of st fn) as [[b|e]|]; try done.
  rewrite He. destruct (envs st !! e) as [env|]; [|done]. cbn. apply IH.
Qed.

Lemma settled_handle_frame st st' hd :
  cells st' = cells st → revs st' = revs st →
  (∀ n fn body, original n st fn = Some body → original n st' fn = Some body) →
  settled_handle st hd → settled_handle st' hd.
Proof.
  intros Hc Hr Ho Hs v Hv. destruct (Hs v Hv) as (n & body & Horig & Hle & Hrun).
  exists n, body. split_and!.
  - by apply Ho.
  - eapply Forall_impl; [done|]. intros d. cbn. by rewrite (rev_same st st').
  - rewrite (deps_current_ext st st') by (intros; by apply rev_same).
    by rewrite (run_ext st st').
Qed.

Lemma settled_frame st st' :
  settled st →
  handles st' = handles st → cells st' = cells st → revs st' = revs st →
  (∀ n fn body, original n st fn = Some body → original n st' fn = Some body) →
  settled st'.
Proof.
  intros Hs Hh Hc Hr Ho h hd Hhd. rewrite Hh in Hhd.
  apply (settled_handle_frame st); [done..|]. by apply (Hs h).
Qed.

Lemma settled_init : settled init_state.
Proof. intros h hd Hh. done. Qed.

Lemma settled_log st ev : settled st → settled (log ev st).
Proof.
  intros Hs. apply (settled_frame st); try done.
  intros n fn body. by rewrite (original_same st (log ev st)).
Qed.

Lemma settled_write_cell st c x : settled st → settled (write_cell c x st).
Proof.
  intros Hs h hd Hhd v Hv. destruct (Hs h hd Hhd v Hv) as (n & body & Horig & Hle & Hrun).
  exists n, body. split_and!.
  - by rewrite (original_same st (write_cell c x st)).
  - eapply Forall_impl; [done|]. intros d. cbn. rewrite rev_write_cell.
    case_decide; [subst; lia|done].
  - intros Hd.
    assert (∀ d, d ∈ h_deps hd → c ≠ d.1) as Hnot.
    { intros d Hin ->. unfold deps_current in Hd. rewrite forallb_forall in Hd.
      specialize (Hd d). rewrite list_elem_of_In in Hin. specialize (Hd Hin).
      rewrite Nat.eqb_eq, rev_write_cell, decide_True in Hd by done.
      rewrite Forall_forall in Hle. specialize (Hle d). rewrite <- list_elem_of_In in Hin.
      specialize (Hle Hin). cbn in Hle. lia. }
    assert (deps_current st (h_deps hd) = true) as Hd'.
    { rewrite <- (deps_current_ext st (write_cell c x st)); [done|].
      intros d Hin. rewrite rev_write_cell. by rewrite decide_False by (by apply Hnot). }
    specialize (Hrun Hd'). rewrite <- Hrun. apply run_agree. rewrite Hrun. cbn.
    intros d Hin. specialize (Hnot d Hin). split.
    + unfold read_cell. cbn. by rewrite lookup_insert_ne.
    + rewrite rev_write_cell. by rewrite decide_False.
Qed.

Lemma settled_createCache st fn : settled st → settled (createCache fn st).2.
Proof.
  intros Hs h hd Hh. cbn in Hh. apply lookup_app_Some in Hh as [Hh|[_ Hh]].
  - apply (settled_handle_frame st); [done|done| |by apply (Hs h)].
    intros n fn' body. by rewrite (original_same st (createCache fn st).2).
  - destruct (h - length (handles st)) as [|n]; [|done]. cbn in Hh. simplify_eq.
    by intros v.
Qed.

Lemma getValue_settled n cache st o st' ds :
  faithful n → wf st → settled st →
  getValue (call n) cache st = (o, st', ds) →
  settled st'
  ∧ ∀ v, o = Return v →
         ∃ h hd m body,
           cache = Some h ∧ handles st !! h = Some hd
           ∧ original m st (bound_target (h_fn hd)) = Some body
           ∧ run st (body (bound_this (h_fn hd))) = (inl v, ds).
Proof.
  intros IH Hwf Hs. unfold getValue.
  destruct (cache ≫= _) as [[h hd]|] eqn:Hc; [|by intros [= <- <- <-]].
  assert (cache = Some h ∧ handles st !! h = Some hd) as [-> Hh].
  { destruct cache as [h'|]; [|done]. simpl in Hc.
    destruct (handles st !! h') eqn:E; simplify_eq/=. done. }
  destruct (cached_value st hd) as [v|] eqn:Hv.
  { intros [= <- <- <-]. split; [done|]. intros v' [= <-].
    unfold cached_value in Hv. destruct (deps_current st (h_deps hd)) eqn:Hd; [|done].
    destruct (Hs h hd Hh v Hv) as (m & body & Ho & _ & Hrun).
    exists h, hd, m, body. by split_and!; [..|apply Hrun]. }
  destruct (call n _ _ _) as [[out st1] ds1] eqn:Hi.
  pose proof (lookup_lt_Some _ _ _ Hh) as Hlt.
  pose proof (wf_log_run st h Hwf Hlt) as Hwf0.
  pose proof (settled_log st (EvRun h) Hs) as Hs0.
  destruct (IH _ _ _ _ _ _ Hwf0 Hs0 Hi) as [Hs1 Hret].
  destruct (call_sound n _ _ _ _ _ _ Hwf0 Hi) as (Hwf1 & Hext1 & Hheap & Hcells & Hrevs).
  destruct out as [v| |]; intros [= <- <- <-]; try done.
  destruct (Hret v eq_refl) as (m & body & Ho & Hrun).
  rewrite (run_ext st (log (EvRun h) st)) in Hrun by done.
  rewrite (original_same st (log (EvRun h) st)) in Ho by done.
  split; [|intros v' [= <-]; by exists h, hd, m, body].
  set (hd' := {| h_fn := h_fn hd; h_value := Some v; h_deps := ds1 |}).
  set (st2 := set_handles (<[h := hd']> (handles st1)) st1).
  assert (∀ k fn b, original k st1 fn = Some b → original k st2 fn = Some b) as Hfw
      by (intros k fn b; by rewrite (original_same st1 st2)).
  assert (cells st2 = cells st ∧ revs st2 = revs st) as [Hc2 Hr2] by done.
  intros h0 hd0 Hh0. cbn in Hh0. destruct (decide (h = h0)) as [<-|Hne].
  - destruct (ext_handles _ _ Hext1 h hd Hh) as (hd1 & Hh1 & _).
    rewrite list_lookup_insert_eq in Hh0 by (by eapply lookup_lt_Some).
    injection Hh0 as <-. intros w [= <-]. exists m, body. cbn [hd' h_fn h_deps].
    assert (ds1 = (run st (body (bound_this (h_fn hd)))).2) as Hds by (by rewrite Hrun).
    split_and!.
    + apply Hfw. apply (original_extends (log (EvRun h) st)); [done|].
      by rewrite (original_same st (log (EvRun h) st)).
    + rewrite Hds. eapply Forall_impl; [apply run_deps_recorded|].
      intros d. cbn. intros ->. rewrite (rev_same st st2) by done. lia.
    + intros _. by rewrite (run_ext st st2).
  - rewrite list_lookup_insert_ne in Hh0 by done.
    apply (settled_handle_frame st1); [done|done|done|by apply (Hs1 h0)].
Qed.

Lemma original_create st e env m n fn :
  envs st !! e = Some env →
  original n (set_envs (<[e := {| caches := m; getter := getter env |}]> (envs st)) st) fn
  = original n st fn.
Proof.
  intros He. revert fn. induction n as [|n IH]; intros fn; cbn [original];
    (assert (callable_of (set_envs (<[e := {| caches := m; getter := getter env |}]> (envs st))
                            st) fn
             = callable_of st fn) as -> by (by destruct fn));
    destruct (callable_of st fn) as [[b|e']|]; try done.
  cbn -[original]. destruct (decide (e' = e)) as [->|Hne].
  - rewrite list_lookup_insert_eq by (by eapply lookup_lt_Some). rewrite He. cbn. apply IH.
  - rewrite list_lookup_insert_ne by done.
    destruct (envs st !! e') as [env'|]; [|done]. cbn. apply IH.
Qed.

Lemma descriptor_get_settled n e this st o st' ds :
  faithful n → wf st → settled st →
  descriptor_get (call n) e this st = (o, st', ds) →
  settled st'
  ∧ ∀ v, o = Return v →
         ∃ env m body,
           envs st !! e = Some env ∧ original m st (getter env) = Some body
           ∧ run st (body this) = (inl v, ds).
Proof.
  intros IH Hwf Hs. unfold descriptor_get.
  destruct (envs st !! e) as [env|] eqn:He; [|by intros [= <- <- <-]].
  destruct (wm_has (caches env) this) eqn:Hhas; cbn -[createCache].
  { intros Hg. destruct (getValue_settled n _ st o st' ds IH Hwf Hs Hg) as [Hs' Hret].
    split; [done|]. intros v Hv.
    destruct (Hret v Hv) as (h & hd & m & body & Hc & Hh & Ho & Hrun).
    rewrite He in Hc. cbn in Hc. destruct this as [| | | | |l]; try done. cbn in Hc.
    destruct (wf_thunk _ Hwf _ _ _ _ He Hc) as (hd' & Hh' & Hf). simplify_eq.
    rewrite Hf in Ho, Hrun. by exists env, m, body. }
  destruct (bind st (getter env) this) as [fn|] eqn:Hb; [|by intros [= <- <- <-]].
  apply bind_Some in Hb as [-> Hg].
  pose proof (settled_createCache st {| bound_target := getter env; bound_this := this |} Hs)
    as Hs1.
  destruct this as [| | | | |l];
    try (intros [= <- <- <-]; split; [by apply settled_log|done]).
  apply wm_has_false in Hhas.
  pose proof (create_sound st e env l _ Hwf He Hhas eq_refl) as (Hwf2 & _).
  cbn -[createCache] in *.
  set (st1 := log (EvCreateCache e (VObject l) (length (handles st)))
                (createCache {| bound_target := getter env; bound_this := VObject l |} st).2)
    in *.
  set (st2 := set_envs _ st1) in *.
  assert (∀ k fn, original k st2 fn = original k st fn) as Hsame.
  { intros k fn. unfold st2. rewrite (original_create st1) by done.
    by apply original_same. }
  assert (settled st2) as Hs2.
  { apply (settled_frame (createCache {| bound_target := getter env;
                                        bound_this := VObject l |} st).2); try done.
    intros k fn b. rewrite Hsame.
    by rewrite (original_same st (createCache {| bound_target := getter env;
                                                 bound_this := VObject l |} st).2). }
  intros Hgv. destruct (getValue_settled n _ st2 o st' ds IH Hwf2 Hs2 Hgv) as [Hs' Hret].
  split; [done|]. intros v Hv.
  destruct (Hret v Hv) as (h & hd & m & body & Hc & Hh & Ho & Hrun).
  assert (h = length (handles st)) as ->.
  { unfold st2 in Hc. cbn in Hc.
    rewrite list_lookup_insert_eq in Hc by (by eapply lookup_lt_Some).
    cbn in Hc. rewrite lookup_insert_eq in Hc. congruence. }
  assert (hd = {| h_fn := {| bound_target := getter env; bound_this := VObject l |};
                  h_value := None; h_deps := [] |}) as ->.
  { cbn in Hh. rewrite list_lookup_middle in Hh by done. congruence. }
  cbn in Ho, Hrun. rewrite Hsame in Ho. rewrite (run_ext st st2) in Hrun by done.
  by exists env, m, body.
Qed.

Lemma call_faithful n : faithful n.
Proof.
  induction n as [|n IH]; intros fn this st o st' ds Hwf Hs; cbn;
    destruct (callable_of st fn) as [[body|e]|] eqn:Hc;
    try (by intros [= <- <- <-]).
  - destruct (run st (body this)) as [r ds'] eqn:Hr. intros [= <- <- <-].
    split; [done|]. intros v Hv. exists 0, body. split; [by apply original_user|].
    destruct r; by simplify_eq/=.
  - destruct (run st (body this)) as [r ds'] eqn:Hr. intros [= <- <- <-].
    split; [done|]. intros v Hv. exists 0, body. split; [by apply original_user|].
    destruct r; by simplify_eq/=.
  - intros Hg. destruct (descriptor_get_settled n e this st o st' ds IH Hwf Hs Hg)
      as [Hs' Hret].
    split; [done|]. intros v Hv. destruct (Hret v Hv) as (env & m & body & He & Ho & Hrun).
    exists (S m), body. split; [|done].
    rewrite (original_getter m st fn e Hc), He. done.
Qed.

Lemma call_settled fuel fn this st : wf st → settled st → settled (call fuel fn this st).1.2.
Proof.
  intros Hwf Hs. destruct (call fuel fn this st) as [[o st'] ds] eqn:Hc.
  by destruct (call_faithful fuel _ _ _ _ _ _ Hwf Hs Hc).
Qed.

Lemma step_settled o st : wf st → settled st → settled (step o st).
Proof.
  intros Hwf Hs. destruct (step_sound o st Hwf) as [_ Hext].
  assert (∀ n fn b, original n st fn = Some b → original n (step o st) fn = Some b) as Hfw
      by (intros n fn b; by apply original_extends).
  destruct o as [ps|body|t k v|c v|dbg args|fuel fn this]; cbn -[cached] in *.
  - by apply (settled_frame st).
  - by apply (settled_frame st).
  - destruct (set_property st t k v) as [st'|] eqn:Hsp; cbn in *; [|done].
    destruct (set_property_rest _ _ _ _ _ Hsp) as (_ & ? & ? & ? & _).
    by apply (settled_frame st).
  - by apply settled_write_cell.
  - destruct (cached dbg args st) as [o st'] eqn:Hc. cbn in *.
    apply cached_cases in Hc as [[-> _]|(_ & d & od & _ & Hd & ->)]; [done|].
    by apply (settled_frame st).
  - by apply call_settled.
Qed.

Lemma reachable_settled st : reachable st → settled st.
Proof.
  induction 1 as [|o st Hst IH]; [apply settled_init|].
  apply step_settled; [by apply reachable_wf|done].
Qed.

Lemma getValue_original n m h hd g l body st :
  (∀ m' fn st', wf st' → settled st' → original m' st' fn = Some body → (m' ≤ n)%nat →
                (call n fn (VObject l) st').1.1 = outcome_of (run st' (body (VObject l))).1) →
  wf st → settled st →
  handles st !! h = Some hd →
  h_fn hd = {| bound_target := g; bound_this := VObject l |} →
  original m st g = Some body → (m ≤ n)%nat →
  (getValue (call n) (Some h) st).1.1 = outcome_of (run st (body (VObject l))).1.
Proof.
  intros IH Hwf Hs Hh Hf Ho Hle. unfold getValue. cbn. rewrite Hh. cbn.
  destruct (cached_value st hd) as [v|] eqn:Hv.
  - unfold cached_value in Hv. destruct (deps_current st (h_deps hd)) eqn:Hd; [|done].
    destruct (Hs h hd Hh v Hv) as (m' & body' & Ho' & _ & Hrun).
    rewrite Hf in Ho', Hrun. cbn in Ho', Hrun.
    rewrite (original_unique _ _ _ _ _ _ Ho Ho'). by rewrite (Hrun Hd).
  - rewrite Hf. cbn.
    pose proof (lookup_lt_Some _ _ _ Hh) as Hlt.
    pose proof (wf_log_run st h Hwf Hlt) as Hwf0.
    pose proof (settled_log st (EvRun h) Hs) as Hs0.
    assert (original m (log (EvRun h) st) g = Some body) as Ho0
        by (by rewrite (original_same st (log (EvRun h) st))).
    pose proof (IH m g _ Hwf0 Hs0 Ho0 Hle) as Hout.
    rewrite (run_ext st (log (EvRun h) st)) in Hout by done.
    destruct (call n g (VObject l) (log (EvRun h) st)) as [[out st1] ds1].
    cbn in Hout. subst out.
    by destruct (run st (body (VObject l))) as [[v|x] ds].
Qed.

Lemma call_original n :
  ∀ m fn l st body,
    wf st → settled st → original m st fn = Some body → (m ≤ n)%nat →
    (call n fn (VObject l) st).1.1 = outcome_of (run st (body (VObject l))).1.
Proof.
  induction n as [|n IH]; intros m fn l st body Hwf Hs Ho Hle.
  - apply original_inv in Ho as [Hc|(e & env & n' & _ & -> & _)]; [|lia].
    by rewrite (call_user 0 st fn (VObject l) body).
  - apply original_inv in Ho as [Hc|(e & env & m' & Hc & -> & He & Ho)].
    { by rewrite (call_user (S n) st fn (VObject l) body). }
    assert (m' ≤ n)%nat as Hle' by lia.
    assert (∃ c, fn = VObject c) as [c ->].
    { destruct fn as [| | | | |c]; try done. eauto. }
    rewrite (call_getter n st c e) by done.
    unfold descriptor_get. rewrite He.
    assert (∀ m0 fn0 st0, wf st0 → settled st0 →
              original m0 st0 fn0 = Some body → (m0 ≤ n)%nat →
              (call n fn0 (VObject l) st0).1.1
              = outcome_of (run st0 (body (VObject l))).1) as IH'.
    { intros m0 fn0 st0 ????. by eapply IH. }
    destruct (wm_has (caches env) (VObject l)) eqn:Hhas; cbn -[createCache getValue].
    + cbn in Hhas. apply bool_decide_eq_true in Hhas as [h Hh].
      rewrite He. cbn -[getValue]. rewrite Hh.
      destruct (wf_thunk _ Hwf _ _ _ _ He Hh) as (hd & Hhd & Hf).
      by apply (getValue_original n m' h hd (getter env) l body st IH').
    + apply wm_has_false in Hhas. unfold bind.
      destruct (original_callable _ _ _ _ Ho) as [k Hk]. rewrite Hk.
      pose proof (create_sound st e env l _ Hwf He Hhas eq_refl) as (Hwf2 & _).
      change (createCache ?f st) with (length (handles st), (createCache f st).2).
      cbn -[createCache getValue] in *.
      set (st1 := log (EvCreateCache e (VObject l) (length (handles st)))
                    (createCache {| bound_target := getter env; bound_this := VObject l |} st).2)
        in *.
      set (st2 := set_envs _ st1) in *.
      assert (∀ k fn, original k st2 fn = original k st fn) as Hsame.
      { intros k0 fn. unfold st2. rewrite (original_create st1) by done.
        by apply original_same. }
      assert (settled st2) as Hs2.
      { apply (settled_frame (createCache {| bound_target := getter env;
                                            bound_this := VObject l |} st).2); try done.
        - by apply settled_createCache.
        - intros k0 fn b. rewrite Hsame.
          by rewrite (original_same st (createCache {| bound_target := getter env;
                                                       bound_this := VObject l |} st).2). }
      rewrite list_lookup_insert_eq by (cbn; by eapply lookup_lt_Some).
      cbn -[getValue createCache]. rewrite lookup_insert_eq.
      rewrite <- (run_ext st st2) by done.
      apply (getValue_original n m' _
               {| h_fn := {| bound_target := getter env; bound_this := VObject l |};
                  h_value := None; h_deps := [] |}
               (getter env) l body st2 IH'); try done.
      * cbn. by rewrite list_lookup_middle.
      * by rewrite Hsame.
Qed.

(** X11. No stale value at any depth: in every reachable state, for a
    function value with a user function under [n] installed getters, the
    user function reading tracked state only, whenever the user function
    returns a value on an object now, a call of the function value with
    that object as receiver, given fuel for the [n] layers, returns that
    value. *)
Theorem memoized_reads_are_transparent n fuel st fn body l v :
  reachable st → original n st fn = Some body → (n ≤ fuel)%nat →
  (run st (body (VObject l))).1 = inl v →
  (call fuel fn (VObject l) st).1.1 = Return v.
Proof.
  intros Hst Ho Hle Hv.
  rewrite (call_original fuel n fn l st body (reachable_wf st Hst) (reachable_settled st Hst))
    by done.
  by rewrite Hv.
Qed.

Lemma memoized_reads_are_transparent_witness :
  (call 2 (VObject 6) (VObject 3) Twice.world).1.1 = Return (VString "Jen Weber").
Proof.
  assert (original 2 Twice.world (VObject 6) = Some Person.fullName) as Ho by (by vm_compute).
  assert (2 ≤ 2)%nat as Hle by lia.
  assert ((run Twice.world (Person.fullName (VObject 3))).1 = inl (VString "Jen Weber"))
    as Hr by (by vm_compute).
  exact (memoized_reads_are_transparent 2 2 Twice.world (VObject 6) Person.fullName 3
           (VString "Jen Weber") reachable_twice Ho Hle Hr).
Defined.

Lemma original_steps os st n fn body :
  wf st → original n st fn = Some body → original n (steps os st) fn = Some body.
Proof.
  revert st. induction os as [|o os IH]; intros st Hwf Ho; [done|].
  cbn. destruct (step_sound o st Hwf) as [Hwf' Hext].
  apply IH; [done|]. by apply (original_extends st).
Qed.

(** X12. The decorator can be applied again to a descriptor it has
    decorated: with [DEBUG] on or off, for an object or [null] target, a
    string key and a descriptor object whose [get] has a user function
    under [n] installed getters, [cached] returns, the descriptor's [get]
    becomes a new getter whose environment holds an empty WeakMap and the
    former [get], with that user function under [n + 1] installed getters;
    and in every later state, whenever the user function, which reads
    tracked state only, returns a value on an object, a call of the new
    getter with that object as receiver returns that value. *)
Theorem decorating_again DEBUG target key d od g n body st :
  reachable st →
  typeof st target = TObject → typeof st key = TString →
  heap st !! d = Some od → code od = None → props od !! "get" = Some g →
  original n st g = Some body →
  let st' := installed_state st d od in
  let c := length (heap st) in
  cached DEBUG [target; key; VObject d] st = (Return VUndefined, st')
  ∧ get_property st' (VObject d) "get" = Some (VObject c)
  ∧ callable_of st' (VObject c) = Some (CachedGetter (length (envs st)))
  ∧ envs st' !! length (envs st) = Some {| caches := ∅; getter := g |}
  ∧ original (S n) st' (VObject c) = Some body
  ∧ ∀ os fuel l v,
      (n < fuel)%nat →
      (run (steps os st') (body (VObject l))).1 = inl v →
      (call fuel (VObject c) (VObject l) (steps os st')).1.1 = Return v.
Proof.
  intros Hst Ht Hk Ho Hcode Hget Horig st' c.
  assert (cached DEBUG [target; key; VObject d] st = (Return VUndefined, st')) as Hc.
  { destruct DEBUG; [|by apply install_object].
    unfold cached. cbn [nth andb length].
    rewrite bool_decide_eq_false_2 by (intros ->; done).
    assert (typeof st (VObject d) = TObject) as Hd.
    { cbn. rewrite Ho. cbn. by rewrite Hcode. }
    rewrite !bool_decide_eq_false_2 by (intros Hn; by apply Hn). cbn [orb].
    unfold not_a_getter. cbn. rewrite Ho. cbn. rewrite Hget. cbn.
    rewrite bool_decide_eq_true_2
      by (apply typeof_function; by eapply original_callable).
    cbn. by apply install_object. }
  destruct (installed_state_spec st d od Ho) as (H1 & H2 & H3 & _).
  fold st' c in H1, H2, H3. rewrite Hget in H3.
  change (default VUndefined (Some g)) with g in H3.
  assert (get_property st' (VObject d) "get" = Some (VObject c)) as Hg.
  { cbn [get_property]. rewrite H1. cbn. by rewrite lookup_insert_eq. }
  assert (callable_of st' (VObject c) = Some (CachedGetter (length (envs st)))) as Hcall
      by (unfold callable_of; by rewrite H2).
  assert (original (S n) st' (VObject c) = Some body) as Horig'.
  { rewrite (original_getter n st' _ (length (envs st))) by done.
    rewrite H3. cbn.
    apply (original_extends st); [by apply extends_installed|done]. }
  split_and!; [done..|].
  intros os fuel l v Hlt Hv.
  assert (reachable st') as Hst'.
  { replace st' with (step (OpDecorate DEBUG [target; key; VObject d]) st);
      [by constructor|].
    cbn -[cached]. by rewrite Hc. }
  pose proof (reachable_steps os st' Hst') as Hst2.
  rewrite (call_original fuel (S n) (VObject c) l (steps os st') body
             (reachable_wf _ Hst2) (reachable_settled _ Hst2)).
  - by rewrite Hv.
  - apply original_steps; [by apply reachable_wf|done].
  - lia.
Qed.

Lemma decorating_again_witness :
  cached true Person.args Person.world = (Return VUndefined, Twice.world).
Proof.
  assert (Twice.world
          = installed_state Person.world 2
              {| props := {[ "get" := VObject 5; "set" := VUndefined;
                             "enumerable" := VBool false; "configurable" := VBool true ]};
                 code := None |}) as Hw by (by vm_compute).
  rewrite Hw.
  refine (proj1 (decorating_again true (VObject 0) (VString "fullName") 2 _ (VObject 5) 1
                   Person.fullName Person.world reachable_world _ _ _ _ _ _));
    by vm_compute.
Defined.
